(** * Constrained Voronoi partition of bike-share stations

    A shallow embedding of the two program files of the repository:

    - [Main]  embeds [src/main.ts], the version that calls turf and
      d3-voronoi directly;
    - [App]   embeds the second file, the version that delegates the
      geometry to the module [./geometry] (imported as [gutils]).

    JavaScript numbers are modelled by rationals ([Q]); NaN and the
    infinities are outside the model.  The libraries that are not part
    of the repository (turf, d3-voronoi, leaflet) and the geometry module
    whose source is absent enter as parameters of the sections below. *)

From Stdlib Require Import QArith Qabs String.
From stdpp Require Import base list.

Local Open Scope nat_scope.

(** ** JavaScript outcomes: a computation returns or throws, and in both
       cases the mutations made so far stay in the state. *)

Inductive error : Type :=
| TypeError   (* property access on null or undefined *)
| TurfError.  (* thrown by a turf constructor on an invalid ring *)

Inductive result (A : Type) : Type :=
| Ok (a : A)
| Throw (e : error).
Arguments Ok {A} a.
Arguments Throw {A} e.

Definition M (S A : Type) : Type := S -> result A * S.

Definition ret {S A : Type} (a : A) : M S A := fun s => (Ok a, s).

Definition throw {S A : Type} (e : error) : M S A := fun s => (Throw e, s).

Definition bind {S A B : Type} (c : M S A) (k : A -> M S B) : M S B :=
  fun s => match c s with
           | (Ok a, s') => k a s'
           | (Throw e, s') => (Throw e, s')
           end.

Definition modify {S : Type} (f : S -> S) : M S unit := fun s => (Ok tt, f s).

Definition gets {S A : Type} (f : S -> A) : M S A := fun s => (Ok (f s), s).

Declare Scope js_scope.
Delimit Scope js_scope with js.
Notation "x <- c ;; k" := (bind c (fun x => k))
  (at level 100, c at next level, right associativity) : js_scope.
Notation "c ;;; k" := (bind c (fun _ => k))
  (at level 100, right associativity) : js_scope.

(** [for (let i = 0; i < n; i++) body(i)] *)
Fixpoint for_each {S A : Type} (body : A -> M S unit) (xs : list A) : M S unit :=
  match xs with
  | [] => ret tt
  | x :: xs' => bind (body x) (fun _ => for_each body xs')
  end.

Definition for_range {S : Type} (n : nat) (body : nat -> M S unit) : M S unit :=
  for_each body (seq 0 n).

(** A coordinate pair [[lat, lng]]. *)
Definition position : Type := Q * Q.

(** Specification: two positions with equal coordinates. *)
Definition same_position (a b : position) : Prop :=
  (fst a == fst b)%Q /\ (snd a == snd b)%Q.

(** Specification: the spec's tolerance equality, both coordinate
    differences below [eps]. *)
Definition tolerance_equal (eps : Q) (a b : position) : Prop :=
  (Qabs (fst a - fst b) < eps)%Q /\ (Qabs (snd a - snd b) < eps)%Q.

(** Polygon coordinates of a turf feature: a list of rings. *)
Definition geometry : Type := list (list position).

(** The part of turf the program calls.  [turf.polygon] validates a ring
    and throws when it rejects it; [turf.intersect] and [turf.difference]
    return a feature or [null] ([None]).  The features they return are
    taken to be of type Polygon; an answer in several parts (MultiPolygon),
    whose [coordinates[0]] is an array of rings, is outside the model. *)
Record turf_api : Type := {
  polygon_accepts : list position -> bool;
  booleanClockwise : list position -> bool;
  intersect : list position -> list position -> option geometry;
  difference : list position -> geometry -> option geometry
}.

(** JavaScript's [==] and [<] on numbers. *)
Definition num_eqb (a b : Q) : bool := Qeq_bool a b.

Definition num_ltb (a b : Q) : bool := negb (Qle_bool b a).

(** [Array.prototype.findIndex]: the index of the first element that
    satisfies [p]; [None] stands for JavaScript's [-1]. *)
Fixpoint findIndex {A : Type} (p : A -> bool) (xs : list A) : option nat :=
  match xs with
  | [] => None
  | x :: xs' => if p x then Some 0 else option_map S (findIndex p xs')
  end.

(** Specification: [xs[i] = g(xs[i])], the step of an in-place loop over
    an array, to which the loops of the program are compared. *)
Definition update_at {A : Type} (g : A -> A) (xs : list A) (i : nat) : list A :=
  match xs !! i with
  | Some x => <[i := g x]> xs
  | None => xs
  end.

(** Specification: how many elements satisfy [p]; a lookup is unique when
    this is 1. *)
Definition matches {A : Type} (p : A -> bool) (xs : list A) : nat :=
  length (List.filter p xs).

Inductive color : Type := Blue | Red | Green.

(** A polygon layer on the map: [addPolygon(points, color, fill)]. *)
Record layer : Type := Layer {
  layer_points : list position;
  layer_color : color;
  layer_fill : bool
}.

(** * [src/main.ts] *)
Module Main.

(** A point is a JavaScript array [[lat, lng]], an object with an
    identity: [ref] indexes the table of point objects.  A polygon is a
    mutable array of points: [loc] indexes the table of arrays. *)
Definition ref : Type := nat.
Definition loc : Type := nat.

Record heap : Type := Heap {
  points : list position;
  arrays : list (list ref)
}.

Definition arr (h : heap) (l : loc) : list ref := default [] (arrays h !! l).

Definition set_arr (l : loc) (v : list ref) (h : heap) : heap :=
  Heap (points h) (<[l := v]> (arrays h)).

Definition coord (h : heap) (p : ref) : position :=
  default (0%Q, 0%Q) (points h !! p).

Definition coords (h : heap) (r : list ref) : list position := map (coord h) r.

(** What a clipping function returns: [undefined] or an array. *)
Inductive value : Type :=
| VUndefined
| VArray (l : loc).

Definition truthy (v : value) : bool :=
  match v with VUndefined => false | VArray _ => true end.

(** The body of [closePolygons]' [forEach]:
    [if (polygon[0] !== polygon[polygon.length - 1]) polygon.push(polygon[0])].
    Both sides are array elements, compared by identity; on the empty
    array both are [undefined]. *)
Definition closePolygon (l : loc) (h : heap) : heap :=
  let polygon := arr h l in
  if decide (polygon !! 0 = last polygon) then h
  else match polygon !! 0 with
       | Some p => set_arr l (polygon ++ [p]) h
       | None => h
       end.

Definition closePolygons (polygons : list loc) (h : heap) : heap :=
  foldl (fun h' l => closePolygon l h') h polygons.

(** Specification: the contents of a polygon after [closePolygon], as a
    function of its contents before. *)
Definition closed_ring (polygon : list ref) : list ref :=
  if decide (polygon !! 0 = last polygon) then polygon
  else match polygon !! 0 with
       | Some p => polygon ++ [p]
       | None => polygon
       end.

(** Specification: what a call of a clipping function can have left of an
    array: what it held, or that closed, or that closed and reversed. *)
Definition ring_kept (before after : list ref) : Prop :=
  after = before \/ after = closed_ring before \/ after = rev (closed_ring before).

(** A fresh array of fresh points, as turf and d3 return them. *)
Definition alloc_ring (r : list position) : M heap loc := fun h =>
  (Ok (length (arrays h)),
   Heap (points h ++ r) (arrays h ++ [seq (length (points h)) (length r)])).

Fixpoint alloc_rings (rs : list (list position)) : M heap (list loc) :=
  match rs with
  | [] => ret []
  | r :: rs' =>
      bind (alloc_ring r) (fun l => bind (alloc_rings rs') (fun ls => ret (l :: ls)))
  end.

(** [feature.geometry.coordinates[0]] of a Polygon feature: its outer
    ring, a new array of new points. *)
Definition first_ring (g : geometry) : M heap value :=
  match g with
  | [] => ret VUndefined
  | r :: _ => bind (alloc_ring r) (fun l => ret (VArray l))
  end.

(** A station: [{name, lat, lng}] from a dataset, or a leaflet [LatLng]
    (no name) from a click or a drag. *)
Record station : Type := Station {
  name : option string;
  lat : Q;
  lng : Q
}.

(** The globals of the program.  [stations_minus1] is the property
    [stations[-1]]: an assignment at index [-1] creates it and leaves
    the elements and the length of the array alone.  An entry of
    [voronoiPolygons] is an array or a hole ([None]), an index below the
    length that holds no element: d3 leaves one for a site that coincides
    with an earlier site, and [map] keeps it. *)
Record state : Type := State {
  store : heap;
  stations : list station;
  stations_minus1 : option station;
  constraints_outer : loc;
  constraints_inner : list loc;
  voronoiPolygons : list (option loc);
  dragStart : option station;
  layers : list layer
}.

Definition with_store (f : heap -> heap) (s : state) : state :=
  State (f (store s)) (stations s) (stations_minus1 s) (constraints_outer s)
        (constraints_inner s) (voronoiPolygons s) (dragStart s) (layers s).

Definition with_stations (f : list station -> list station) (s : state) : state :=
  State (store s) (f (stations s)) (stations_minus1 s) (constraints_outer s)
        (constraints_inner s) (voronoiPolygons s) (dragStart s) (layers s).

Definition with_stations_minus1 (v : option station) (s : state) : state :=
  State (store s) (stations s) v (constraints_outer s)
        (constraints_inner s) (voronoiPolygons s) (dragStart s) (layers s).

Definition with_voronoiPolygons (f : list (option loc) -> list (option loc)) (s : state)
  : state :=
  State (store s) (stations s) (stations_minus1 s) (constraints_outer s)
        (constraints_inner s) (f (voronoiPolygons s)) (dragStart s) (layers s).

Definition with_dragStart (v : option station) (s : state) : state :=
  State (store s) (stations s) (stations_minus1 s) (constraints_outer s)
        (constraints_inner s) (voronoiPolygons s) v (layers s).

Definition with_layers (f : list layer -> list layer) (s : state) : state :=
  State (store s) (stations s) (stations_minus1 s) (constraints_outer s)
        (constraints_inner s) (voronoiPolygons s) (dragStart s) (f (layers s)).

(** Run a computation on the heap inside the program state. *)
Definition on_store {A : Type} (c : M heap A) : M state A := fun s =>
  match c (store s) with
  | (r, h) => (r, with_store (fun _ => h) s)
  end.

Section WithLibraries.
Variable turf : turf_api.

(** [d3.voronoi()(positions).polygons()]: one entry per site, an array
    whose elements may be [null] (the inner [None]), or a hole (the outer
    [None]) for a site that coincides with an earlier one. *)
Variable d3_polygons : list position -> list (option (list (option position))).

(** [turf.booleanClockwise(ring) || ring.reverse()]: the feature holds
    the caller's array itself, so the reversal happens in place. *)
Definition orient (l : loc) (h : heap) : heap :=
  if booleanClockwise turf (coords h (arr h l)) then h
  else set_arr l (rev (arr h l)) h.

Definition createTurfPolygons (polygon1 polygon2 : loc) : M heap (loc * loc) :=
  fun h =>
    if negb (polygon_accepts turf (coords h (arr h polygon1))) then (Throw TurfError, h)
    else if negb (polygon_accepts turf (coords h (arr h polygon2))) then (Throw TurfError, h)
    else (Ok (polygon1, polygon2), orient polygon2 (orient polygon1 h)).

Definition too_short (polygon1 polygon2 : loc) (h : heap) : bool :=
  (length (arr h polygon1) <? 3) || (length (arr h polygon2) <? 3).

(** Specification: whether a clipping function called on [l1] and [l2]
    gets as far as orienting the rings: once closed, both have 3 elements
    or more and [turf.polygon] takes both. *)
Definition reaches_orientation (l1 l2 : loc) (h : heap) : bool :=
  let ring1 := closed_ring (arr h l1) in
  let ring2 := closed_ring (arr h l2) in
  (3 <=? length ring1) && (3 <=? length ring2) &&
  polygon_accepts turf (coords h ring1) && polygon_accepts turf (coords h ring2).

(** Specification: an operand as a clipping function leaves it: closed,
    and, when the call got as far as orienting the rings, reversed exactly
    when turf reports the closed ring as not clockwise. *)
Definition normalised_ring (oriented : bool) (h : heap) (before : list ref) : list ref :=
  let closed := closed_ring before in
  if oriented && negb (booleanClockwise turf (coords h closed)) then rev closed else closed.

(** Specification: from [h] to [h'] the arrays [l1] and [l2] were
    normalised, every other array of [h] and every point of [h] is as it
    was. *)
Definition operands_normalised (l1 l2 : loc) (h h' : heap) : Prop :=
  let oriented := reaches_orientation l1 l2 h in
  arr h' l1 = normalised_ring oriented h (arr h l1) /\
  arr h' l2 = normalised_ring oriented h (arr h l2) /\
  (forall l, l <> l1 -> l <> l2 -> l < length (arrays h) -> arr h' l = arr h l) /\
  (forall p, p < length (points h) -> coord h' p = coord h p).

Definition turf_intersect (t : loc * loc) (h : heap) : option geometry :=
  intersect turf (coords h (arr h (fst t))) (coords h (arr h (snd t))).

Definition removeIntersection (polygon1 polygon2 : loc) : M heap value :=
  (modify (closePolygons [polygon1; polygon2]) ;;;
   short <- gets (too_short polygon1 polygon2) ;;
   if short : bool then ret VUndefined
   else
     t <- createTurfPolygons polygon1 polygon2 ;;
     intersection <- gets (turf_intersect t) ;;
     match intersection with
     | Some i =>
         d <- gets (fun h => difference turf (coords h (arr h (fst t))) i) ;;
         match d with
         | Some g => first_ring g
         | None => throw TypeError
         end
     | None => ret (VArray polygon1)
     end)%js.

Definition polygonIntersection (polygon1 polygon2 : loc) : M heap value :=
  (modify (closePolygons [polygon1; polygon2]) ;;;
   short <- gets (too_short polygon1 polygon2) ;;
   if short : bool then ret VUndefined
   else
     t <- createTurfPolygons polygon1 polygon2 ;;
     intersection <- gets (turf_intersect t) ;;
     match intersection with
     | Some i => first_ring i
     | None => l <- alloc_ring [] ;; ret (VArray l)
     end)%js.

(** [voronoiPolygons[i] = new_polygon ? new_polygon : voronoiPolygons[i]] *)
Definition install (i : nat) (new_polygon : value) : M state unit :=
  match new_polygon with
  | VArray l => modify (with_voronoiPolygons (fun vp => <[i := Some l]> vp))
  | VUndefined => ret tt
  end.

(** One pass of a clipping function over [voronoiPolygons[i]]; reading a
    hole, or past the end, gives [undefined], and [closePolygons] throws
    when it reads [polygon[0]] of it, before it touches the other
    operand. *)
Definition clip_cell (clip : loc -> loc -> M heap value) (i : nat) (other : loc)
  : M state unit :=
  (cell <- gets (fun s => voronoiPolygons s !! i) ;;
   match cell with
   | Some (Some c) => new_polygon <- on_store (clip c other) ;; install i new_polygon
   | Some None | None => throw TypeError
   end)%js.

Definition clip_outer : M state unit :=
  (n <- gets (fun s => length (voronoiPolygons s)) ;;
   for_range n (fun i =>
     outer <- gets constraints_outer ;;
     clip_cell polygonIntersection i outer))%js.

Definition clip_inner : M state unit :=
  (n <- gets (fun s => length (voronoiPolygons s)) ;;
   for_range n (fun i =>
     inner <- gets constraints_inner ;;
     for_each (fun obstacle => clip_cell removeIntersection i obstacle) inner))%js.

(** [polygon && polygon.length > 0]; an array is always truthy, and
    [filter] does not visit a hole, which is then not in its result. *)
Definition keeps (h : heap) (polygon : option loc) : bool :=
  match polygon with
  | Some l => truthy (VArray l) && (0 <? length (arr h l))
  | None => false
  end.

Definition applyConstraints : M state unit :=
  (clip_outer ;;;
   clip_inner ;;;
   modify (fun s => with_voronoiPolygons (List.filter (keeps (store s))) s))%js.

Definition non_null (polygon : list (option position)) : list position :=
  omap id polygon.

(** [polygons.map(polygon => ...)]: a new array for every polygon, and a
    hole where [polygons] has one. *)
Fixpoint alloc_cells (polygons : list (option (list position))) : M heap (list (option loc)) :=
  match polygons with
  | [] => ret []
  | None :: rest => bind (alloc_cells rest) (fun ls => ret (None :: ls))
  | Some r :: rest =>
      bind (alloc_ring r) (fun l => bind (alloc_cells rest) (fun ls => ret (Some l :: ls)))
  end.

Definition voronoi : M state unit :=
  (positions <- gets (fun s => map (fun p => (lat p, lng p)) (stations s)) ;;
   cells <- on_store (alloc_cells (map (option_map non_null) (d3_polygons positions))) ;;
   modify (with_voronoiPolygons (fun _ => cells)))%js.

Definition addPolygon (polygon : loc) (c : color) (fill : bool) : M state unit :=
  modify (fun s =>
    with_layers (fun ls => ls ++ [Layer (coords (store s) (arr (store s) polygon)) c fill]) s).

(** [forEach] does not visit a hole. *)
Definition present (cells : list (option loc)) : list loc := omap id cells.

Definition redraw : M state unit :=
  (voronoi ;;;
   applyConstraints ;;;
   modify (with_layers (fun _ => [])) ;;;
   cells <- gets voronoiPolygons ;;
   for_each (fun polygon => addPolygon polygon Blue false) (present cells) ;;;
   outer <- gets constraints_outer ;;
   addPolygon outer Red false ;;;
   inner <- gets constraints_inner ;;
   for_each (fun polygon => addPolygon polygon Red true) inner)%js.

Definition onMapClick (latlng : station) : M state unit :=
  (modify (with_stations (fun st => st ++ [latlng])) ;;; redraw)%js.

Definition dragstart (latlng : station) : M state unit :=
  modify (with_dragStart (Some latlng)).

(** [p => (p.lat == dragStart.lat) && (p.lng == dragStart.lng)] *)
Definition same_place (start p : station) : bool :=
  num_eqb (lat p) (lat start) && num_eqb (lng p) (lng start).

(** [stations[index] = latlng], for an index that [findIndex] returned. *)
Definition assign_station (index : option nat) (latlng : station) (s : state) : state :=
  match index with
  | Some i => with_stations (fun st => <[i := latlng]> st) s
  | None => with_stations_minus1 (Some latlng) s
  end.

(** The two statements of the [dragend] handler before [redraw()];
    reading [dragStart.lat] while [dragStart] is unset throws. *)
Definition dragend_update (latlng : station) : M state unit :=
  (start <- gets dragStart ;;
   match start with
   | Some d =>
       index <- gets (fun s => findIndex (same_place d) (stations s)) ;;
       modify (assign_station index latlng)
   | None =>
       empty <- gets (fun s => length (stations s) =? 0) ;;
       if empty : bool then modify (assign_station None latlng) else throw TypeError
   end)%js.

Definition dragend (latlng : station) : M state unit :=
  (dragend_update latlng ;;; redraw)%js.

(** The callback of [loadConstraints] up to its call of [redraw]: every
    ring of the file is mapped to a new array of new [[lat, lng]] points,
    the outer ring first. *)
Definition setConstraints (outer : list position) (inner : list (list position))
  : M state unit :=
  (o <- on_store (alloc_ring outer) ;;
   i <- on_store (alloc_rings inner) ;;
   modify (fun s =>
     State (store s) (stations s) (stations_minus1 s) o i
           (voronoiPolygons s) (dragStart s) (layers s)))%js.

Definition loadConstraints (outer : list position) (inner : list (list position))
  : M state unit :=
  (setConstraints outer inner ;;; redraw)%js.

End WithLibraries.

(** The globals as [init] leaves them: no station, no cell, and
    [constraints = {'outer': [], 'inner': []}], the outer polygon being an
    empty array of its own. *)
Definition init : state := State (Heap [] [[]]) [] None 0 [] [] None [].

(** Specification: from [s] to [s'] the stations, the recorded drag start
    and the layers of the map are as they were, and the constraints are
    the same arrays; what the arrays hold is a matter of the heap. *)
Definition only_cells_changed (s s' : state) : Prop :=
  stations s' = stations s /\
  stations_minus1 s' = stations_minus1 s /\
  constraints_outer s' = constraints_outer s /\
  constraints_inner s' = constraints_inner s /\
  dragStart s' = dragStart s /\
  layers s' = layers s.

(** Specification: [h'] has every point of [h], with its coordinates, and
    at least the arrays of [h]. *)
Definition heap_extends (h h' : heap) : Prop :=
  points h `prefix_of` points h' /\ length (arrays h) <= length (arrays h').

(** Specification: [h'] extends [h], and every array of [h] holds in [h']
    what it held, or that closed, or that closed and reversed. *)
Definition heap_kept (h h' : heap) : Prop :=
  heap_extends h h' /\
  forall l, l < length (arrays h) -> ring_kept (arr h l) (arr h' l).

(** Specification: where the cells of a state are when [first] is the
    first free array: a new array for every polygon, a hole for a hole. *)
Fixpoint cell_locs {A : Type} (first : loc) (polygons : list (option A)) : list (option loc) :=
  match polygons with
  | [] => []
  | None :: rest => None :: cell_locs first rest
  | Some _ :: rest => Some first :: cell_locs (S first) rest
  end.

End Main.

(** * The second program file: the geometry lives in [./geometry] *)
Module App.

(** [interface Station] *)
Record Station : Type := createStation {
  name : string;
  lat : Q;
  lng : Q;
  icon : string
}.

Definition position_of (p : Station) : position := (lat p, lng p).

(** A polygon as the geometry module exchanges it: an array of
    [[lat, lng]] pairs. *)
Definition polygon : Type := list position.

(** Modelled from the spec: the bounding box that [gutils.voronoi] returns
    with the cells (its declaration is in the absent geometry module);
    the spec describes it as min/max x and min/max y. *)
Record Bounds : Type := {
  min_x : Q;
  max_x : Q;
  min_y : Q;
  max_y : Q
}.

(** The second argument of [gutils.voronoi]: the outer polygon when the
    constraints are shown, the stations themselves otherwise. *)
Inductive extent : Type :=
| OfPolygon (p : polygon)
| OfStations (st : list Station).

(** The functions of the geometry module that the program calls.  Its
    source is absent; by the spec's contract for clipping they do not
    mutate their arguments, and they return a new ring or an absent
    value ([None]). *)
Record geometry_api : Type := {
  voronoi : list Station -> extent -> list polygon * Bounds;
  polygonFromBounds : Bounds -> polygon;
  pointInPolygon : Station -> polygon -> bool;
  polygonIntersection : polygon -> polygon -> option polygon;
  polygonMinus : polygon -> polygon -> option polygon
}.

(** The globals of the program, with what is shown on the map. *)
Record state : Type := State {
  stations : list Station;
  constraints_outer : polygon;
  constraints_inner : list polygon;
  voronoiPolygons : list polygon;
  boolMarkers : bool;
  boolConstraints : bool;
  dragStart : option position;
  layers : list layer;
  markers : list Station
}.

Definition with_stations (f : list Station -> list Station) (s : state) : state :=
  State (f (stations s)) (constraints_outer s) (constraints_inner s)
        (voronoiPolygons s) (boolMarkers s) (boolConstraints s) (dragStart s)
        (layers s) (markers s).

Definition with_voronoiPolygons (f : list polygon -> list polygon) (s : state) : state :=
  State (stations s) (constraints_outer s) (constraints_inner s)
        (f (voronoiPolygons s)) (boolMarkers s) (boolConstraints s) (dragStart s)
        (layers s) (markers s).

Definition with_boolMarkers (b : bool) (s : state) : state :=
  State (stations s) (constraints_outer s) (constraints_inner s)
        (voronoiPolygons s) b (boolConstraints s) (dragStart s)
        (layers s) (markers s).

Definition with_boolConstraints (b : bool) (s : state) : state :=
  State (stations s) (constraints_outer s) (constraints_inner s)
        (voronoiPolygons s) (boolMarkers s) b (dragStart s)
        (layers s) (markers s).

Definition with_dragStart (d : option position) (s : state) : state :=
  State (stations s) (constraints_outer s) (constraints_inner s)
        (voronoiPolygons s) (boolMarkers s) (boolConstraints s) d
        (layers s) (markers s).

Definition with_layers (f : list layer -> list layer) (s : state) : state :=
  State (stations s) (constraints_outer s) (constraints_inner s)
        (voronoiPolygons s) (boolMarkers s) (boolConstraints s) (dragStart s)
        (f (layers s)) (markers s).

Definition with_markers (f : list Station -> list Station) (s : state) : state :=
  State (stations s) (constraints_outer s) (constraints_inner s)
        (voronoiPolygons s) (boolMarkers s) (boolConstraints s) (dragStart s)
        (layers s) (f (markers s)).

Section WithGeometry.
Variable gutils : geometry_api.

(** The tolerance of [gutils.pointsEqual]. *)
Variable epsilon : Q.

(** Modelled from the spec: [gutils.pointsEqual], whose source is absent;
    the spec gives it as both coordinate deltas below epsilon. *)
Definition pointsEqual (a b : position) : bool :=
  num_ltb (Qabs (fst a - fst b)) epsilon && num_ltb (Qabs (snd a - snd b)) epsilon.

(** [applyConstraintsToPoints] *)
Definition applyConstraintsToPoints (s : state) : state :=
  if length (constraints_outer s) =? 0 then s
  else
    let s1 :=
      with_stations
        (List.filter (fun point => pointInPolygon gutils point (constraints_outer s))) s in
    foldl (fun s' polygon =>
             with_stations
               (List.filter (fun point => negb (pointInPolygon gutils point polygon))) s')
          s1 (constraints_inner s1).

(** Specification: the points that the constraints allow, inside the
    outer polygon and inside no inner polygon. *)
Definition allowed (outer : polygon) (inner : list polygon) (point : Station) : bool :=
  pointInPolygon gutils point outer &&
  forallb (fun obstacle => negb (pointInPolygon gutils point obstacle)) inner.

(** The body of the first loop of [applyConstraintsToVoronoi]. *)
Definition clip_outer_at (outer : polygon) (vp : list polygon) (i : nat) : list polygon :=
  match vp !! i with
  | Some cell =>
      match polygonIntersection gutils cell outer with
      | Some new_polygon =>
          if length new_polygon <? 3 then vp else <[i := new_polygon]> vp
      | None => vp
      end
  | None => vp
  end.

(** [voronoiPolygons[i] = new_polygon ? new_polygon : voronoiPolygons[i]] *)
Definition minus_at (i : nat) (vp : list polygon) (obstacle : polygon) : list polygon :=
  match vp !! i with
  | Some cell =>
      match polygonMinus gutils cell obstacle with
      | Some new_polygon => <[i := new_polygon]> vp
      | None => vp
      end
  | None => vp
  end.

Definition clip_inner_at (inner : list polygon) (vp : list polygon) (i : nat) : list polygon :=
  foldl (minus_at i) vp inner.

Definition applyConstraintsToVoronoi (s : state) : state :=
  let clipped :=
    foldl (clip_outer_at (constraints_outer s)) (voronoiPolygons s)
          (seq 0 (length (voronoiPolygons s))) in
  let cut :=
    foldl (clip_inner_at (constraints_inner s)) clipped (seq 0 (length clipped)) in
  with_voronoiPolygons (fun _ => cut) s.

(** Specification: what the loops of [applyConstraintsToVoronoi] make of
    one cell, told cell by cell.  A clip replaces the cell unless it is
    absent or has fewer than [min_points] points. *)
Definition keep_unless_ring (min_points : nat) (cell : polygon) (clip : option polygon)
  : polygon :=
  match clip with
  | Some new_polygon => if length new_polygon <? min_points then cell else new_polygon
  | None => cell
  end.

Definition minus_obstacle (cell obstacle : polygon) : polygon :=
  keep_unless_ring 0 cell (polygonMinus gutils cell obstacle).

Definition clipped_cell (outer : polygon) (inner : list polygon) (cell : polygon) : polygon :=
  foldl minus_obstacle (keep_unless_ring 3 cell (polygonIntersection gutils cell outer)) inner.

Definition addPolygon (points : polygon) (c : color) (fill : bool) (s : state) : state :=
  with_layers (fun ls => ls ++ [Layer points c fill]) s.

Definition addPolygons (ps : list polygon) (c : color) (fill : bool) (s : state) : state :=
  foldl (fun s' points => addPolygon points c fill s') s ps.

(** The drawing half of [update], after the recalculation. *)
Definition draw (bounds : Bounds) (s : state) : state :=
  let s1 := with_layers (fun _ => []) (with_markers (fun _ => []) s) in
  let s2 := addPolygons (voronoiPolygons s1) Blue false s1 in
  let s3 :=
    if boolConstraints s2
    then addPolygons (constraints_inner s2) Red true
           (addPolygon (constraints_outer s2) Red false s2)
    else s2 in
  let s4 := addPolygon (polygonFromBounds gutils bounds) Green false s3 in
  if boolMarkers s4 then with_markers (fun ms => ms ++ stations s4) s4 else s4.

Definition update (s : state) : state :=
  if length (stations s) =? 0 then s
  else if boolConstraints s then
    let s1 := applyConstraintsToPoints s in
    let '(cells, bounds) := voronoi gutils (stations s1) (OfPolygon (constraints_outer s1)) in
    let s2 := applyConstraintsToVoronoi (with_voronoiPolygons (fun _ => cells) s1) in
    draw bounds s2
  else
    let '(cells, bounds) := voronoi gutils (stations s) (OfStations (stations s)) in
    draw bounds (with_voronoiPolygons (fun _ => cells) s).

(** The map's [click] handler. *)
Definition onMapClick (latlng : position) (s : state) : state :=
  if boolMarkers s
  then update (with_stations
                 (fun st => st ++ [createStation "new station" (fst latlng) (snd latlng) "red"]) s)
  else s.

Definition toggleMarkers (s : state) : state :=
  update (with_boolMarkers (negb (boolMarkers s)) s).

Definition toggleConstraints (s : state) : state :=
  update (with_boolConstraints (negb (boolConstraints s)) s).

Definition dragstart (latlng : position) (s : state) : state :=
  with_dragStart (Some latlng) s.

(** The three assignments of the [dragend] handler to [stations[index]]. *)
Definition moved (latlng : position) (p : Station) : Station :=
  createStation (name p) (fst latlng) (snd latlng)
                (if negb (String.eqb (icon p) "red") then "orange" else "red").

(** The [dragend] handler: [stations[index].lat = ...] throws when
    [findIndex] returned [-1], since [stations[-1]] is [undefined]. *)
Definition dragend (latlng : position) : M state unit :=
  (start <- gets dragStart ;;
   match start with
   | Some d =>
       index <- gets (fun s => findIndex (fun p => pointsEqual (position_of p) d) (stations s)) ;;
       match index with
       | Some i =>
           modify (with_stations (fun st => alter (moved latlng) i st)) ;;;
           modify update
       | None => throw TypeError
       end
   | None => throw TypeError
   end)%js.

(** [stations.splice(index, 1)]; a negative index counts from the end, so
    [-1] removes the last element. *)
Definition splice1 (index : option nat) (st : list Station) : list Station :=
  match index with
  | Some i => delete i st
  | None => removelast st
  end.

(** A marker's [click] handler. *)
Definition onMarkerClick (latlng : position) (s : state) : state :=
  let index := findIndex (fun p => pointsEqual (position_of p) latlng) (stations s) in
  update (with_stations (splice1 index) s).

End WithGeometry.

End App.

(** * Concrete inputs for the examples *)
Module Examples.

(** [turf.polygon]'s validation as turf documents it: a ring has at least
    four positions and its last position equals its first. *)
Definition ring_valid (r : list position) : bool :=
  (4 <=? length r) &&
  match r !! 0, last r with
  | Some a, Some z => num_eqb (fst a) (fst z) && num_eqb (snd a) (snd z)
  | _, _ => false
  end.

(** [turf.booleanClockwise]: the sign of the sum over the edges of
    [(x2 - x1) * (y2 + y1)]. *)
Fixpoint edge_sum (r : list position) : Q :=
  match r with
  | a :: (b :: _) as r' => ((fst b - fst a) * (snd b + snd a) + edge_sum r')%Q
  | _ => 0%Q
  end.

Definition clockwise (r : list position) : bool := num_ltb 0 (edge_sum r).

(** turf at an input where [turf.intersect] answers [i] and
    [turf.difference] answers [d]. *)
Definition turf_answering (i d : option geometry) : turf_api :=
  {| polygon_accepts := ring_valid;
     booleanClockwise := clockwise;
     intersect := fun _ _ => i;
     difference := fun _ _ => d |}.

Definition pos (x y : Z) : position := (inject_Z x, inject_Z y).

(** Two open rings: the triangle (0,0) (1,0) (1,1) in array 0 and the
    square (5,5) (5,6) (6,6) (6,5), which is disjoint from it, in array 1. *)
Definition two_disjoint : Main.heap :=
  Main.Heap [pos 0 0; pos 1 0; pos 1 1; pos 5 5; pos 5 6; pos 6 6; pos 6 5]
            [[0; 1; 2]; [3; 4; 5; 6]].

(** The square (1,1) (1,2) (2,2) (2,1) in array 0, inside the square
    (0,0) (0,3) (3,3) (3,0) in array 1; both clockwise and open. *)
Definition small_in_large : Main.heap :=
  Main.Heap [pos 1 1; pos 1 2; pos 2 2; pos 2 1; pos 0 0; pos 0 3; pos 3 3; pos 3 0]
            [[0; 1; 2; 3]; [4; 5; 6; 7]].

(** A ring of two points, (0,0) (1,1), in array 0 and the open square
    (5,5) (5,6) (6,6) (6,5) in array 1. *)
Definition segment_and_square : Main.heap :=
  Main.Heap [pos 0 0; pos 1 1; pos 5 5; pos 5 6; pos 6 6; pos 6 5]
            [[0; 1]; [2; 3; 4; 5]].

Definition small_square : list position := [pos 1 1; pos 1 2; pos 2 2; pos 2 1; pos 1 1].

(** A ring that arrives closed: its last point has the coordinates of its
    first and is another object, as when a closed ring is read from the
    constraints file. *)
Definition closed_by_value : Main.heap :=
  Main.Heap [pos 0 0; pos 1 0; pos 1 1; pos 0 0] [[0; 1; 2; 3]].

(** A ring whose last point lies 1e-12 from its first without being it. *)
Definition nearly_closed : Main.heap :=
  Main.Heap [pos 0 0; pos 1 0; pos 1 1; ((1 # 1000000000000)%Q, 0%Q)] [[0; 1; 2; 3]].

Definition main_state (h : Main.heap) (cells : list Main.loc) (outer : Main.loc)
  (inner : list Main.loc) (sts : list Main.station) (start : option Main.station)
  : Main.state :=
  Main.State h sts None outer inner (map Some cells) start [].

(** One cell, the triangle, and an outer polygon disjoint from it. *)
Definition cell_outside_outer : Main.state := main_state two_disjoint [0] 1 [] [] None.

(** One cell, the small square, and the large square as outer polygon. *)
Definition cell_inside_outer : Main.state := main_state small_in_large [0] 1 [] [] None.

Definition unit_square : list position := [pos 0 0; pos 0 1; pos 1 1; pos 1 0; pos 0 0].

Definition large_square : list position := [pos 0 0; pos 0 3; pos 3 3; pos 3 0; pos 0 0].

(** A point is in a polygon of the examples when it is in its bounding
    box, which for the squares used here is the polygon itself. *)
Definition in_box (p : App.Station) (poly : App.polygon) : bool :=
  existsb (fun a => Qle_bool (fst a) (App.lat p)) poly &&
  existsb (fun a => Qle_bool (App.lat p) (fst a)) poly &&
  existsb (fun a => Qle_bool (snd a) (App.lng p)) poly &&
  existsb (fun a => Qle_bool (App.lng p) (snd a)) poly.

(** The geometry module at an input where [polygonIntersection] answers
    [i] and [polygonMinus] answers [d]; every station gets the cell
    [unit_square]. *)
Definition gutils_answering (i d : option App.polygon) : App.geometry_api :=
  {| App.voronoi := fun st _ =>
       (map (fun _ => unit_square) st, App.Build_Bounds 0 1 0 1);
     App.polygonFromBounds := fun _ => unit_square;
     App.pointInPolygon := in_box;
     App.polygonIntersection := fun _ _ => i;
     App.polygonMinus := fun _ _ => d |}.

Definition app_state (sts : list App.Station) (outer : App.polygon)
  (inner : list App.polygon) (cells : list App.polygon) (start : option position)
  : App.state :=
  App.State sts outer inner cells true true start [] [].

(** One cell, [unit_square], under an obstacle that covers it. *)
Definition cell_under_obstacle : App.state :=
  app_state [] large_square [large_square] [unit_square] None.


(** d3 at an input of two sites at one place: the open unit square for
    the first and a hole for the second. *)
Definition d3_one_cell_one_hole (positions : list position)
  : list (option (list (option position))) :=
  [Some [Some (pos 0 0); Some (pos 0 1); Some (pos 1 1); Some (pos 1 0)]; None].


Definition latlng (x y : Z) : Main.station := Main.Station None (inject_Z x) (inject_Z y).

(** The large square as outer polygon (array 0), no obstacle. *)
Definition outer_only : Main.heap :=
  Main.Heap [pos 0 0; pos 0 3; pos 3 3; pos 3 0] [[0; 1; 2; 3]].


(** Two stations at (1,1), the second with a name; the drag starts
    there. *)
Definition drag_from_shared_place : Main.state :=
  main_state outer_only [] 0 []
    [latlng 1 1; Main.Station (Some "Central"%string) 1 1] (Some (latlng 1 1)).

End Examples.

(** * Facts about [src/main.ts] *)

Section HeapFacts.
Implicit Types (h : Main.heap) (l : Main.loc) (v : list Main.ref).

Lemma arr_nonempty_valid h l : Main.arr h l <> [] -> l < length (Main.arrays h).
Proof.
  unfold Main.arr. intros Hne.
  destruct (Main.arrays h !! l) eqn:E.
  - eapply lookup_lt_Some; eauto.
  - simpl in Hne; congruence.
Qed.

Lemma arr_set_arr_eq h l v : l < length (Main.arrays h) -> Main.arr (Main.set_arr l v h) l = v.
Proof.
  intros Hl. unfold Main.arr, Main.set_arr; simpl.
  by rewrite list_lookup_insert_eq.
Qed.

Lemma arr_set_arr_ne h l l' v : l <> l' -> Main.arr (Main.set_arr l v h) l' = Main.arr h l'.
Proof.
  intros Hl. unfold Main.arr, Main.set_arr; simpl.
  by rewrite list_lookup_insert_ne.
Qed.

Lemma arrays_set_arr_length h l v :
  length (Main.arrays (Main.set_arr l v h)) = length (Main.arrays h).
Proof. unfold Main.set_arr; simpl. apply length_insert. Qed.

(** What [closePolygon] leaves in the array it is applied to. *)
Lemma closePolygon_arr h l :
  Main.arr (Main.closePolygon l h) l = Main.closed_ring (Main.arr h l).
Proof.
  unfold Main.closePolygon, Main.closed_ring.
  destruct (decide (Main.arr h l !! 0 = last (Main.arr h l))) as [E|E]; [done|].
  destruct (Main.arr h l !! 0) as [p|] eqn:E0; [|done].
  apply arr_set_arr_eq, arr_nonempty_valid.
  intros Hnil. rewrite Hnil in E0. discriminate.
Qed.

Lemma closePolygon_arr_other h l l' :
  l <> l' -> Main.arr (Main.closePolygon l h) l' = Main.arr h l'.
Proof.
  intros Hl. unfold Main.closePolygon.
  destruct (decide _); [done|].
  destruct (Main.arr h l !! 0); [|done].
  by apply arr_set_arr_ne.
Qed.

Lemma closePolygon_points h l : Main.points (Main.closePolygon l h) = Main.points h.
Proof.
  unfold Main.closePolygon.
  destruct (decide _); [done|]. by destruct (Main.arr h l !! 0).
Qed.

Lemma closePolygon_arrays_length h l :
  length (Main.arrays (Main.closePolygon l h)) = length (Main.arrays h).
Proof.
  unfold Main.closePolygon.
  destruct (decide _); [done|]. destruct (Main.arr h l !! 0); [|done].
  apply arrays_set_arr_length.
Qed.

Lemma closed_ring_closed v : Main.closed_ring v !! 0 = last (Main.closed_ring v).
Proof.
  unfold Main.closed_ring.
  destruct (decide (v !! 0 = last v)) as [E|E]; [done|].
  destruct v as [|p v']; [done|].
  change ((p :: v') !! 0) with (Some p). cbv iota. by rewrite last_snoc.
Qed.

Lemma closePolygon_idemp h l :
  Main.closePolygon l (Main.closePolygon l h) = Main.closePolygon l h.
Proof.
  unfold Main.closePolygon at 1.
  rewrite closePolygon_arr, decide_True; [done|]. apply closed_ring_closed.
Qed.

End HeapFacts.

(** C4, as amended: [closePolygons] compares the ring's first and last
    elements exactly, without a tolerance.  A ring whose last element is
    its first is left as it is; a ring whose last point differs from its
    first in some coordinate gets its first point appended; afterwards the
    last element is the first; and closing twice is closing once. *)
Theorem closePolygon_exact_and_idempotent (h : Main.heap) (l : Main.loc) :
  let polygon := Main.arr h l in
  let closed := Main.arr (Main.closePolygon l h) l in
  (polygon !! 0 = last polygon -> closed = polygon) /\
  (forall a z : Main.ref,
      polygon !! 0 = Some a -> last polygon = Some z ->
      ~ same_position (Main.coord h a) (Main.coord h z) ->
      closed = polygon ++ [a]) /\
  closed !! 0 = last closed /\
  Main.closePolygon l (Main.closePolygon l h) = Main.closePolygon l h /\
  Main.closePolygons [l] (Main.closePolygons [l] h) = Main.closePolygons [l] h.
Proof.
  intros polygon closed. subst closed. rewrite closePolygon_arr. fold polygon.
  repeat split.
  - intros E. unfold Main.closed_ring. by rewrite decide_True.
  - intros a z Ha Hz Hdiff. unfold Main.closed_ring.
    rewrite decide_False, Ha; [done|].
    rewrite Ha, Hz. intros [= ->]. apply Hdiff. by split.
  - apply closed_ring_closed.
  - apply closePolygon_idemp.
  - simpl. apply closePolygon_idemp.
Qed.

(** A ring whose last point is within 1e-9 of its first (1e-12 away) is
    still extended by [closePolygons]: the test is not a tolerance test.
    So is a ring whose last point has the very coordinates of its first,
    within every tolerance, but is another object. *)
Lemma closePolygon_appends_within_tolerance :
  (tolerance_equal (1 # 1000000000)
     (Main.coord Examples.nearly_closed 0) (Main.coord Examples.nearly_closed 3) /\
   Main.arr Examples.nearly_closed 0 = [0; 1; 2; 3] /\
   Main.arr (Main.closePolygons [0] Examples.nearly_closed) 0 = [0; 1; 2; 3; 0]) /\
  (same_position
     (Main.coord Examples.closed_by_value 0) (Main.coord Examples.closed_by_value 3) /\
   Main.arr Examples.closed_by_value 0 = [0; 1; 2; 3] /\
   Main.arr (Main.closePolygons [0] Examples.closed_by_value) 0 = [0; 1; 2; 3; 0]).
Proof. repeat split; vm_compute; congruence. Qed.

Section ClippingFacts.
Variable turf : turf_api.
Implicit Types (h : Main.heap) (l : Main.loc) (v : list Main.ref).

Lemma closePolygons_pair h l1 l2 :
  Main.closePolygons [l1; l2] h = Main.closePolygon l2 (Main.closePolygon l1 h).
Proof. reflexivity. Qed.

Lemma orient_arr h l :
  Main.arr (Main.orient turf l h) l = Main.arr h l \/
  Main.arr (Main.orient turf l h) l = rev (Main.arr h l).
Proof.
  unfold Main.orient. destruct (booleanClockwise turf _); [by left|].
  destruct (decide (l < length (Main.arrays h))) as [Hl|Hl].
  - right. by apply arr_set_arr_eq.
  - left. unfold Main.set_arr, Main.arr; simpl.
    rewrite list_insert_ge by lia. done.
Qed.

Lemma orient_arr_other h l l' :
  l <> l' -> Main.arr (Main.orient turf l h) l' = Main.arr h l'.
Proof.
  intros Hl. unfold Main.orient. destruct (booleanClockwise turf _); [done|].
  by apply arr_set_arr_ne.
Qed.

Lemma orient_points h l : Main.points (Main.orient turf l h) = Main.points h.
Proof. unfold Main.orient. by destruct (booleanClockwise turf _). Qed.

Lemma orient_arrays_length h l :
  length (Main.arrays (Main.orient turf l h)) = length (Main.arrays h).
Proof.
  unfold Main.orient. destruct (booleanClockwise turf _); [done|].
  apply arrays_set_arr_length.
Qed.

Lemma alloc_ring_arr_old (r : list position) h l :
  l < length (Main.arrays h) -> Main.arr (snd (Main.alloc_ring r h)) l = Main.arr h l.
Proof. intros Hl. unfold Main.arr; simpl. by rewrite lookup_app_l. Qed.

Lemma alloc_ring_coord_old (r : list position) h p :
  p < length (Main.points h) -> Main.coord (snd (Main.alloc_ring r h)) p = Main.coord h p.
Proof. intros Hp. unfold Main.coord; simpl. by rewrite lookup_app_l. Qed.

Lemma alloc_ring_arr_new (r : list position) h :
  Main.arr (snd (Main.alloc_ring r h)) (length (Main.arrays h)) =
  seq (length (Main.points h)) (length r).
Proof.
  unfold Main.arr; simpl.
  rewrite lookup_app_r by lia. by rewrite Nat.sub_diag.
Qed.

Lemma lookup_fresh_points (d : position) (r xs : list position) :
  map (fun p => default d ((xs ++ r) !! p)) (seq (length xs) (length r)) = r.
Proof.
  revert xs. induction r as [|a r IH]; intros xs; [done|].
  simpl. f_equal.
  - rewrite lookup_app_r by lia. by rewrite Nat.sub_diag.
  - specialize (IH (xs ++ [a])).
    rewrite <- (assoc_L (++)) in IH. simpl in IH.
    rewrite length_app in IH. simpl in IH.
    by replace (length xs + 1) with (S (length xs)) in IH by lia.
Qed.

(** The array that [alloc_ring] returns holds the coordinates given. *)
Lemma alloc_ring_coords (r : list position) h :
  Main.coords (snd (Main.alloc_ring r h))
              (Main.arr (snd (Main.alloc_ring r h)) (length (Main.arrays h))) = r.
Proof.
  rewrite alloc_ring_arr_new. unfold Main.coords, Main.coord. simpl.
  apply lookup_fresh_points.
Qed.

(** [polygonIntersection] step by step. *)
Lemma polygonIntersection_eq l1 l2 h :
  Main.polygonIntersection turf l1 l2 h =
  let h1 := Main.closePolygons [l1; l2] h in
  if Main.too_short l1 l2 h1 then (Ok Main.VUndefined, h1)
  else if negb (polygon_accepts turf (Main.coords h1 (Main.arr h1 l1)))
       then (Throw TurfError, h1)
  else if negb (polygon_accepts turf (Main.coords h1 (Main.arr h1 l2)))
       then (Throw TurfError, h1)
  else
    let h2 := Main.orient turf l2 (Main.orient turf l1 h1) in
    match intersect turf (Main.coords h2 (Main.arr h2 l1)) (Main.coords h2 (Main.arr h2 l2)) with
    | Some [] => (Ok Main.VUndefined, h2)
    | Some (r :: _) => (Ok (Main.VArray (length (Main.arrays h2))), snd (Main.alloc_ring r h2))
    | None => (Ok (Main.VArray (length (Main.arrays h2))), snd (Main.alloc_ring [] h2))
    end.
Proof.
  unfold Main.polygonIntersection, bind, modify, gets, Main.createTurfPolygons,
    Main.turf_intersect. cbv zeta.
  destruct (Main.too_short l1 l2 _); [done|].
  destruct (negb (polygon_accepts turf _)); [done|].
  destruct (negb (polygon_accepts turf _)); [done|].
  simpl. destruct (intersect turf _ _) as [[|r g]|]; reflexivity.
Qed.

(** [removeIntersection] step by step. *)
Lemma removeIntersection_eq l1 l2 h :
  Main.removeIntersection turf l1 l2 h =
  let h1 := Main.closePolygons [l1; l2] h in
  if Main.too_short l1 l2 h1 then (Ok Main.VUndefined, h1)
  else if negb (polygon_accepts turf (Main.coords h1 (Main.arr h1 l1)))
       then (Throw TurfError, h1)
  else if negb (polygon_accepts turf (Main.coords h1 (Main.arr h1 l2)))
       then (Throw TurfError, h1)
  else
    let h2 := Main.orient turf l2 (Main.orient turf l1 h1) in
    match intersect turf (Main.coords h2 (Main.arr h2 l1)) (Main.coords h2 (Main.arr h2 l2)) with
    | Some i =>
        match difference turf (Main.coords h2 (Main.arr h2 l1)) i with
        | Some [] => (Ok Main.VUndefined, h2)
        | Some (r :: _) => (Ok (Main.VArray (length (Main.arrays h2))), snd (Main.alloc_ring r h2))
        | None => (Throw TypeError, h2)
        end
    | None => (Ok (Main.VArray l1), h2)
    end.
Proof.
  unfold Main.removeIntersection, bind, modify, gets, Main.createTurfPolygons,
    Main.turf_intersect. cbv zeta.
  destruct (Main.too_short l1 l2 _); [done|].
  destruct (negb (polygon_accepts turf _)); [done|].
  destruct (negb (polygon_accepts turf _)); [done|].
  simpl. destruct (intersect turf _ _) as [i|]; [|reflexivity].
  destruct (difference turf _ i) as [[|r g]|]; reflexivity.
Qed.

Lemma closePolygons_arrays_length l1 l2 h :
  length (Main.arrays (Main.closePolygons [l1; l2] h)) = length (Main.arrays h).
Proof. rewrite closePolygons_pair. by rewrite !closePolygon_arrays_length. Qed.

Lemma closePolygons_pair_points l1 l2 h :
  Main.points (Main.closePolygons [l1; l2] h) = Main.points h.
Proof. rewrite closePolygons_pair. by rewrite !closePolygon_points. Qed.

Lemma coords_same_points h h' v :
  Main.points h' = Main.points h -> Main.coords h' v = Main.coords h v.
Proof. intros E. unfold Main.coords, Main.coord. by rewrite E. Qed.

(** What [orient] leaves in an array of the heap. *)
Lemma orient_arr_eq h l :
  l < length (Main.arrays h) ->
  Main.arr (Main.orient turf l h) l =
  if booleanClockwise turf (Main.coords h (Main.arr h l)) then Main.arr h l
  else rev (Main.arr h l).
Proof.
  intros Hl. unfold Main.orient. destruct (booleanClockwise turf _); [done|].
  by apply arr_set_arr_eq.
Qed.

Lemma oriented_arrays_length l1 l2 h :
  length (Main.arrays (Main.orient turf l2 (Main.orient turf l1 h))) = length (Main.arrays h).
Proof. by rewrite !orient_arrays_length. Qed.

Lemma oriented_points l1 l2 h :
  Main.points (Main.orient turf l2 (Main.orient turf l1 h)) = Main.points h.
Proof. by rewrite !orient_points. Qed.

Lemma too_short_false l1 l2 h :
  Main.too_short l1 l2 h = false ->
  3 <= length (Main.arr h l1) /\ 3 <= length (Main.arr h l2) /\
  l1 < length (Main.arrays h) /\ l2 < length (Main.arrays h).
Proof.
  unfold Main.too_short. intros [H1 H2]%orb_false_iff.
  apply Nat.ltb_ge in H1, H2. repeat split; try done.
  - apply arr_nonempty_valid. intros E. rewrite E in H1. simpl in H1. lia.
  - apply arr_nonempty_valid. intros E. rewrite E in H2. simpl in H2. lia.
Qed.

(** Two different arrays after [closePolygons]: each is closed, and turf
    is asked about the closed rings with the coordinates they had. *)
Lemma closed_operands l1 l2 h :
  l1 <> l2 ->
  let h1 := Main.closePolygons [l1; l2] h in
  Main.arr h1 l1 = Main.closed_ring (Main.arr h l1) /\
  Main.arr h1 l2 = Main.closed_ring (Main.arr h l2) /\
  Main.coords h1 (Main.arr h1 l1) = Main.coords h (Main.closed_ring (Main.arr h l1)) /\
  Main.coords h1 (Main.arr h1 l2) = Main.coords h (Main.closed_ring (Main.arr h l2)).
Proof.
  intros Hne h1.
  assert (H1 : Main.arr h1 l1 = Main.closed_ring (Main.arr h l1)).
  { unfold h1. rewrite closePolygons_pair, closePolygon_arr_other by done.
    apply closePolygon_arr. }
  assert (H2 : Main.arr h1 l2 = Main.closed_ring (Main.arr h l2)).
  { unfold h1. rewrite closePolygons_pair, closePolygon_arr.
    by rewrite closePolygon_arr_other. }
  rewrite H1, H2. split; [done|]. split; [done|].
  split; apply coords_same_points, closePolygons_pair_points.
Qed.

(** A call that returns or throws before the rings are oriented leaves
    the operands closed. *)
Lemma normalised_early l1 l2 h :
  l1 <> l2 ->
  Main.reaches_orientation turf l1 l2 h = false ->
  Main.operands_normalised turf l1 l2 h (Main.closePolygons [l1; l2] h).
Proof.
  intros Hne Hearly.
  destruct (closed_operands l1 l2 h Hne) as (H1 & H2 & _). cbv zeta in H1, H2.
  unfold Main.operands_normalised, Main.normalised_ring. cbv zeta. rewrite Hearly.
  split; [exact H1|]. split; [exact H2|]. split.
  - intros l Hl1 Hl2 _. rewrite closePolygons_pair. by rewrite !closePolygon_arr_other.
  - intros p _. unfold Main.coord. by rewrite closePolygons_pair_points.
Qed.

(** A call that gets as far as orienting the rings leaves each operand
    closed, and reversed exactly when turf reports it as not clockwise. *)
Lemma normalised_late l1 l2 h :
  l1 <> l2 ->
  Main.reaches_orientation turf l1 l2 h = true ->
  Main.too_short l1 l2 (Main.closePolygons [l1; l2] h) = false ->
  Main.operands_normalised turf l1 l2 h
    (Main.orient turf l2 (Main.orient turf l1 (Main.closePolygons [l1; l2] h))).
Proof.
  intros Hne Hlate Hlong.
  destruct (closed_operands l1 l2 h Hne) as (H1 & H2 & Hc1 & Hc2).
  cbv zeta in H1, H2, Hc1, Hc2.
  apply too_short_false in Hlong as (_ & _ & Hv1 & Hv2).
  unfold Main.operands_normalised, Main.normalised_ring. cbv zeta. rewrite Hlate.
  split; [|split; [|split]].
  - rewrite orient_arr_other by done. rewrite orient_arr_eq by done.
    rewrite Hc1, H1. by destruct (booleanClockwise turf _).
  - rewrite orient_arr_eq by (by rewrite orient_arrays_length).
    rewrite orient_arr_other by done.
    rewrite (coords_same_points (Main.closePolygons [l1; l2] h)) by apply orient_points.
    rewrite Hc2, H2. by destruct (booleanClockwise turf _).
  - intros l Hl1 Hl2 _. rewrite !orient_arr_other by done.
    rewrite closePolygons_pair. by rewrite !closePolygon_arr_other.
  - intros p _. unfold Main.coord. by rewrite oriented_points, closePolygons_pair_points.
Qed.

Lemma normalised_alloc l1 l2 h h2 (r : list position) :
  length (Main.arrays h2) = length (Main.arrays h) ->
  length (Main.points h2) = length (Main.points h) ->
  l1 < length (Main.arrays h2) -> l2 < length (Main.arrays h2) ->
  Main.operands_normalised turf l1 l2 h h2 ->
  Main.operands_normalised turf l1 l2 h (snd (Main.alloc_ring r h2)).
Proof.
  intros Hlen Hpts Hl1 Hl2 (H1 & H2 & Hothers & Hpoints). repeat split.
  - by rewrite alloc_ring_arr_old.
  - by rewrite alloc_ring_arr_old.
  - intros l Hn1 Hn2 Hl. rewrite alloc_ring_arr_old by lia. by apply Hothers.
  - intros p Hp. rewrite alloc_ring_coord_old by lia. by apply Hpoints.
Qed.

(** The guards of the clipping functions, read on the heap before the
    call. *)
Lemma guards_reach_orientation l1 l2 h :
  l1 <> l2 ->
  let h1 := Main.closePolygons [l1; l2] h in
  Main.reaches_orientation turf l1 l2 h =
  negb (Main.too_short l1 l2 h1) &&
  polygon_accepts turf (Main.coords h1 (Main.arr h1 l1)) &&
  polygon_accepts turf (Main.coords h1 (Main.arr h1 l2)).
Proof.
  intros Hne h1.
  destruct (closed_operands l1 l2 h Hne) as (H1 & H2 & Hc1 & Hc2).
  cbv zeta in H1, H2, Hc1, Hc2. fold h1 in H1, H2, Hc1, Hc2.
  unfold Main.reaches_orientation, Main.too_short. cbv zeta.
  rewrite Hc1, Hc2, H1, H2, negb_orb, !Nat.ltb_antisym, !negb_involutive. done.
Qed.

End ClippingFacts.

Section PreparedOperands.
Variable turf : turf_api.

(** The heaps that a clipping function can leave: [h1] when it stops at
    one of its guards, [h2], possibly with one more array, when it gets as
    far as turf's operations. *)
Lemma prepared_operands (h : Main.heap) (l1 l2 : Main.loc) :
  l1 <> l2 ->
  let h1 := Main.closePolygons [l1; l2] h in
  let h2 := Main.orient turf l2 (Main.orient turf l1 h1) in
  (Main.too_short l1 l2 h1 = true -> Main.operands_normalised turf l1 l2 h h1) /\
  (polygon_accepts turf (Main.coords h1 (Main.arr h1 l1)) = false ->
   Main.operands_normalised turf l1 l2 h h1) /\
  (polygon_accepts turf (Main.coords h1 (Main.arr h1 l2)) = false ->
   Main.operands_normalised turf l1 l2 h h1) /\
  (Main.too_short l1 l2 h1 = false ->
   polygon_accepts turf (Main.coords h1 (Main.arr h1 l1)) = true ->
   polygon_accepts turf (Main.coords h1 (Main.arr h1 l2)) = true ->
   Main.operands_normalised turf l1 l2 h h2 /\
   forall r : list position,
     Main.operands_normalised turf l1 l2 h (snd (Main.alloc_ring r h2))) /\
  length (Main.arrays h) <= length (Main.arrays h2).
Proof.
  intros Hne h1 h2.
  pose proof (guards_reach_orientation turf l1 l2 h Hne) as Hreach.
  cbv zeta in Hreach. fold h1 in Hreach.
  pose proof (closePolygons_arrays_length l1 l2 h) as Hlen1.
  pose proof (closePolygons_pair_points l1 l2 h) as Hpts1.
  pose proof (oriented_arrays_length turf l1 l2 h1) as Hlen2.
  pose proof (oriented_points turf l1 l2 h1) as Hpts2.
  fold h1 in Hlen1, Hpts1. fold h2 in Hlen2, Hpts2.
  split; [|split; [|split; [|split]]].
  - intros Hshort. apply normalised_early; [done|]. by rewrite Hreach, Hshort.
  - intros Hrejected. apply normalised_early; [done|].
    by rewrite Hreach, Hrejected, andb_false_r.
  - intros Hrejected. apply normalised_early; [done|].
    by rewrite Hreach, Hrejected, andb_false_r.
  - intros Hlong Hok1 Hok2.
    assert (Hlate : Main.operands_normalised turf l1 l2 h h2).
    { apply normalised_late; [done| |done]. by rewrite Hreach, Hlong, Hok1, Hok2. }
    split; [exact Hlate|]. intros r.
    apply too_short_false in Hlong as (_ & _ & Hv1 & Hv2).
    apply normalised_alloc; try done; try lia. by rewrite Hpts2, Hpts1.
  - lia.
Qed.

End PreparedOperands.

(** C3, as amended: called on two different arrays, the clipping functions
    change their operands in place, and in this way only.  Each operand is
    closed; and when the call gets as far as orienting the rings (both
    closed rings have 3 elements or more and [turf.polygon] takes both),
    each operand is reversed exactly when turf reports its closed ring as
    not clockwise.  No other array and no point is touched, and an array
    that [polygonIntersection] returns is a new one. *)
Theorem clipping_normalises_operands_in_place
  (turf : turf_api) (h : Main.heap) (l1 l2 : Main.loc) :
  l1 <> l2 ->
  (let '(r, h') := Main.polygonIntersection turf l1 l2 h in
   Main.operands_normalised turf l1 l2 h h' /\
   forall l, r = Ok (Main.VArray l) -> length (Main.arrays h) <= l) /\
  (let '(r, h') := Main.removeIntersection turf l1 l2 h in
   Main.operands_normalised turf l1 l2 h h' /\
   forall l, r = Ok (Main.VArray l) -> l = l1 \/ length (Main.arrays h) <= l).
Proof.
  intros Hne.
  destruct (prepared_operands turf h l1 l2 Hne)
    as (Hshort & Hrejected1 & Hrejected2 & Hturf & Hge).
  cbv zeta in Hshort, Hrejected1, Hrejected2, Hturf, Hge.
  split.
  - rewrite polygonIntersection_eq. cbv zeta.
    destruct (Main.too_short l1 l2 _) eqn:Hs; [split; [by apply Hshort|done]|].
    destruct (polygon_accepts turf (Main.coords _ (Main.arr _ l1))) eqn:Hok1; cbn [negb];
      [|split; [by apply Hrejected1|done]].
    destruct (polygon_accepts turf (Main.coords _ (Main.arr _ l2))) eqn:Hok2; cbn [negb];
      [|split; [by apply Hrejected2|done]].
    destruct (Hturf eq_refl eq_refl eq_refl) as [Horiented Halloc]. simpl.
    destruct (intersect turf _ _) as [[|r g]|].
    + by split.
    + split; [by apply Halloc|]. intros l [= <-]. exact Hge.
    + split; [by apply Halloc|]. intros l [= <-]. exact Hge.
  - rewrite removeIntersection_eq. cbv zeta.
    destruct (Main.too_short l1 l2 _) eqn:Hs; [split; [by apply Hshort|done]|].
    destruct (polygon_accepts turf (Main.coords _ (Main.arr _ l1))) eqn:Hok1; cbn [negb];
      [|split; [by apply Hrejected1|done]].
    destruct (polygon_accepts turf (Main.coords _ (Main.arr _ l2))) eqn:Hok2; cbn [negb];
      [|split; [by apply Hrejected2|done]].
    destruct (Hturf eq_refl eq_refl eq_refl) as [Horiented Halloc]. simpl.
    destruct (intersect turf _ _) as [i|].
    + destruct (difference turf _ i) as [[|r g]|].
      * by split.
      * split; [by apply Halloc|]. intros l [= <-]. right. exact Hge.
      * by split.
    + split; [done|]. intros l [= <-]. by left.
Qed.

(** The theorem above at two open rings that do not overlap: the triangle
    is closed and, not being clockwise, reversed; the square, which is
    clockwise, is closed only. *)
Lemma clipping_normalises_operands_witness :
  let turf := Examples.turf_answering None None in
  (let '(r, h') := Main.polygonIntersection turf 0 1 Examples.two_disjoint in
   Main.operands_normalised turf 0 1 Examples.two_disjoint h' /\
   forall l, r = Ok (Main.VArray l) -> length (Main.arrays Examples.two_disjoint) <= l) /\
  (let '(r, h') := Main.removeIntersection turf 0 1 Examples.two_disjoint in
   Main.operands_normalised turf 0 1 Examples.two_disjoint h' /\
   forall l, r = Ok (Main.VArray l) -> l = 0 \/ length (Main.arrays Examples.two_disjoint) <= l).
Proof.
  apply (clipping_normalises_operands_in_place
           (Examples.turf_answering None None) Examples.two_disjoint 0 1).
  lia.
Defined.

(** Intersecting two open rings changes both operand arrays: each gets its
    first point appended, and the triangle, which turf reports as not
    clockwise, is reversed as well. *)
Lemma polygonIntersection_mutates_operands :
  let '(r, h') :=
    Main.polygonIntersection (Examples.turf_answering None None) 0 1 Examples.two_disjoint in
  Main.arr Examples.two_disjoint 0 = [0; 1; 2] /\
  Main.arr h' 0 = [0; 2; 1; 0] /\
  Main.arr Examples.two_disjoint 1 = [3; 4; 5; 6] /\
  Main.arr h' 1 = [3; 4; 5; 6; 3].
Proof. vm_compute. done. Qed.

(** [polygonIntersection] returns [undefined] when either ring has fewer
    than 3 elements after closing; otherwise, once [turf.polygon] has
    taken both rings, it returns a new empty array when turf finds no
    overlap and a new array holding the outer ring of turf's intersection
    when it finds one. *)
Lemma polygonIntersection_overlap_or_empty
  (turf : turf_api) (h : Main.heap) (l1 l2 : Main.loc) :
  let closed := Main.closePolygons [l1; l2] h in
  let answer := Main.polygonIntersection turf l1 l2 h in
  (length (Main.arr closed l1) < 3 \/ length (Main.arr closed l2) < 3 ->
   answer = (Ok Main.VUndefined, closed)) /\
  (3 <= length (Main.arr closed l1) -> 3 <= length (Main.arr closed l2) ->
   polygon_accepts turf (Main.coords closed (Main.arr closed l1)) = true ->
   polygon_accepts turf (Main.coords closed (Main.arr closed l2)) = true ->
   let h2 := Main.orient turf l2 (Main.orient turf l1 closed) in
   let new := length (Main.arrays h2) in
   match intersect turf (Main.coords h2 (Main.arr h2 l1)) (Main.coords h2 (Main.arr h2 l2)) with
   | None =>
       fst answer = Ok (Main.VArray new) /\ Main.arr (snd answer) new = []
   | Some (ring :: _) =>
       fst answer = Ok (Main.VArray new) /\
       Main.coords (snd answer) (Main.arr (snd answer) new) = ring
   | Some [] => answer = (Ok Main.VUndefined, h2)
   end).
Proof.
  intros closed answer. subst answer. rewrite polygonIntersection_eq. fold closed.
  cbv zeta. split.
  - intros Hshort. unfold Main.too_short.
    destruct Hshort as [H1|H2].
    + apply Nat.ltb_lt in H1. by rewrite H1.
    + apply Nat.ltb_lt in H2. rewrite H2. by rewrite orb_true_r.
  - intros H1 H2 Hok1 Hok2. unfold Main.too_short.
    apply Nat.ltb_ge in H1, H2. rewrite H1, H2, Hok1, Hok2. simpl.
    destruct (intersect turf _ _) as [[|ring g]|]; [done| |].
    + split; [done|]. exact (alloc_ring_coords ring _).
    + split; [done|]. exact (alloc_ring_arr_new [] _).
Qed.

(** The lemma above where the rings are disjoint and where one lies in
    the other. *)
Lemma polygonIntersection_overlap_or_empty_examples :
  (let answer :=
     Main.polygonIntersection (Examples.turf_answering None None) 0 1 Examples.two_disjoint in
   fst answer = Ok (Main.VArray 2) /\ Main.arr (snd answer) 2 = []) /\
  (let answer :=
     Main.polygonIntersection (Examples.turf_answering (Some [Examples.small_square]) None)
       0 1 Examples.small_in_large in
   fst answer = Ok (Main.VArray 2) /\
   Main.coords (snd answer) (Main.arr (snd answer) 2) = Examples.small_square).
Proof.
  split.
  - apply (proj2 (polygonIntersection_overlap_or_empty
                    (Examples.turf_answering None None) Examples.two_disjoint 0 1));
      vm_compute; (reflexivity || lia).
  - apply (proj2 (polygonIntersection_overlap_or_empty
                    (Examples.turf_answering (Some [Examples.small_square]) None)
                    Examples.small_in_large 0 1));
      vm_compute; (reflexivity || lia).
Defined.

Lemma closed_ring_length (v : list Main.ref) : length v <= length (Main.closed_ring v).
Proof.
  unfold Main.closed_ring. destruct (decide _); [done|].
  destruct (v !! 0); [|done]. rewrite length_app. lia.
Qed.

(** C6, where the code departs from it: the guard against degenerate rings
    counts the elements after closing, so a ring of two points, which has
    three elements once its first point is appended, passes the guard and
    reaches [turf.polygon], which throws on a ring of fewer than four
    positions.  The call faults where the claim has it return an absent
    or empty result. *)
Theorem polygonIntersection_two_point_ring_throws
  (turf : turf_api) (h : Main.heap) (l1 l2 : Main.loc) (a b : Main.ref) :
  (forall r : list position, length r < 4 -> polygon_accepts turf r = false) ->
  l1 <> l2 ->
  Main.arr h l1 = [a; b] -> a <> b ->
  3 <= length (Main.arr h l2) ->
  Main.arr (Main.closePolygons [l1; l2] h) l1 = [a; b; a] /\
  Main.polygonIntersection turf l1 l2 h = (Throw TurfError, Main.closePolygons [l1; l2] h).
Proof.
  intros Hturf Hne Harr Hab Hl2.
  assert (H1 : Main.arr (Main.closePolygons [l1; l2] h) l1 = [a; b; a]).
  { rewrite closePolygons_pair, closePolygon_arr_other, closePolygon_arr, Harr by done.
    unfold Main.closed_ring. simpl. rewrite decide_False; [done|]. by intros [= ->]. }
  assert (H2 : 3 <= length (Main.arr (Main.closePolygons [l1; l2] h) l2)).
  { rewrite closePolygons_pair, closePolygon_arr, closePolygon_arr_other by done.
    pose proof (closed_ring_length (Main.arr h l2)). lia. }
  split; [done|].
  assert (Hlong : Main.too_short l1 l2 (Main.closePolygons [l1; l2] h) = false).
  { unfold Main.too_short. rewrite H1. apply Nat.ltb_ge in H2. by rewrite H2. }
  assert (Hrejected : polygon_accepts turf
            (Main.coords (Main.closePolygons [l1; l2] h)
                         (Main.arr (Main.closePolygons [l1; l2] h) l1)) = false).
  { apply Hturf. rewrite H1. simpl. lia. }
  rewrite polygonIntersection_eq. cbv zeta. by rewrite Hlong, Hrejected.
Qed.

(** The theorem above at the ring (0,0) (1,1) and a square. *)
Lemma polygonIntersection_two_point_ring_witness :
  Main.arr (Main.closePolygons [0; 1] Examples.segment_and_square) 0 = [0; 1; 0] /\
  Main.polygonIntersection (Examples.turf_answering None None) 0 1 Examples.segment_and_square
  = (Throw TurfError, Main.closePolygons [0; 1] Examples.segment_and_square).
Proof.
  apply (polygonIntersection_two_point_ring_throws
           (Examples.turf_answering None None) Examples.segment_and_square 0 1 0 1).
  - intros r Hr. simpl. unfold Examples.ring_valid.
    apply Nat.leb_gt in Hr. by rewrite Hr.
  - lia.
  - reflexivity.
  - lia.
  - simpl. lia.
Defined.

(** [removeIntersection] returns [undefined] on a ring of fewer than 3
    points, the first operand itself when turf finds no overlap, and a new
    array holding the outer ring of turf's difference otherwise. *)
Lemma removeIntersection_cases (turf : turf_api) (h : Main.heap) (l1 l2 : Main.loc) :
  let closed := Main.closePolygons [l1; l2] h in
  let answer := Main.removeIntersection turf l1 l2 h in
  (length (Main.arr closed l1) < 3 \/ length (Main.arr closed l2) < 3 ->
   answer = (Ok Main.VUndefined, closed)) /\
  (3 <= length (Main.arr closed l1) -> 3 <= length (Main.arr closed l2) ->
   polygon_accepts turf (Main.coords closed (Main.arr closed l1)) = true ->
   polygon_accepts turf (Main.coords closed (Main.arr closed l2)) = true ->
   let h2 := Main.orient turf l2 (Main.orient turf l1 closed) in
   let new := length (Main.arrays h2) in
   match intersect turf (Main.coords h2 (Main.arr h2 l1)) (Main.coords h2 (Main.arr h2 l2)) with
   | None => answer = (Ok (Main.VArray l1), h2)
   | Some i =>
       match difference turf (Main.coords h2 (Main.arr h2 l1)) i with
       | Some (ring :: _) =>
           fst answer = Ok (Main.VArray new) /\
           Main.coords (snd answer) (Main.arr (snd answer) new) = ring
       | Some [] => answer = (Ok Main.VUndefined, h2)
       | None => answer = (Throw TypeError, h2)
       end
   end).
Proof.
  intros closed answer. subst answer. rewrite removeIntersection_eq. fold closed.
  cbv zeta. split.
  - intros Hshort. unfold Main.too_short.
    destruct Hshort as [H1|H2].
    + apply Nat.ltb_lt in H1. by rewrite H1.
    + apply Nat.ltb_lt in H2. rewrite H2. by rewrite orb_true_r.
  - intros H1 H2 Hok1 Hok2. unfold Main.too_short.
    apply Nat.ltb_ge in H1, H2. rewrite H1, H2, Hok1, Hok2. simpl.
    destruct (intersect turf _ _) as [i|]; [|done].
    destruct (difference turf _ i) as [[|ring g]|]; [done| |done].
    split; [done|]. exact (alloc_ring_coords ring _).
Qed.

(** C2, where the code departs from it: when turf finds an overlap and
    [turf.difference] answers [null], which is its answer when nothing of
    the first polygon remains, [removeIntersection] reads [.geometry] of
    [null] and throws. *)
Theorem removeIntersection_throws_when_nothing_remains
  (turf : turf_api) (h : Main.heap) (l1 l2 : Main.loc) (i : geometry) :
  let closed := Main.closePolygons [l1; l2] h in
  let h2 := Main.orient turf l2 (Main.orient turf l1 closed) in
  3 <= length (Main.arr closed l1) -> 3 <= length (Main.arr closed l2) ->
  polygon_accepts turf (Main.coords closed (Main.arr closed l1)) = true ->
  polygon_accepts turf (Main.coords closed (Main.arr closed l2)) = true ->
  intersect turf (Main.coords h2 (Main.arr h2 l1)) (Main.coords h2 (Main.arr h2 l2)) = Some i ->
  difference turf (Main.coords h2 (Main.arr h2 l1)) i = None ->
  Main.removeIntersection turf l1 l2 h = (Throw TypeError, h2).
Proof.
  intros closed h2 H1 H2 Hok1 Hok2 Hi Hd.
  pose proof (proj2 (removeIntersection_cases turf h l1 l2) H1 H2 Hok1 Hok2) as Hcases.
  cbv zeta in Hcases. fold closed in Hcases. fold h2 in Hcases.
  by rewrite Hi, Hd in Hcases.
Qed.

(** The square (1,1)-(2,2) minus the square (0,0)-(3,3) that covers it:
    the intersection is the small square, nothing remains, and the call
    throws. *)
Lemma removeIntersection_throws_witness :
  Main.removeIntersection (Examples.turf_answering (Some [Examples.small_square]) None)
    0 1 Examples.small_in_large
  = (Throw TypeError,
     Main.Heap (Main.points Examples.small_in_large) [[0; 1; 2; 3; 0]; [4; 5; 6; 7; 4]]).
Proof.
  apply (removeIntersection_throws_when_nothing_remains
           (Examples.turf_answering (Some [Examples.small_square]) None)
           Examples.small_in_large 0 1 [Examples.small_square]);
    vm_compute; (reflexivity || lia).
Defined.

(** The final filter of [applyConstraints] keeps arrays with a point. *)
Lemma keeps_nonempty (h : Main.heap) (polygon : option Main.loc) :
  Main.keeps h polygon = true ->
  exists l, polygon = Some l /\ 0 < length (Main.arr h l).
Proof.
  unfold Main.keeps. destruct polygon as [l|]; [|done]. simpl.
  intros ?%Nat.ltb_lt. by exists l.
Qed.

(** C10: when [applyConstraints] returns, every entry left in
    [voronoiPolygons] is an array of the heap with at least one point. *)
Theorem applyConstraints_leaves_nonempty_cells
  (turf : turf_api) (s s' : Main.state) :
  Main.applyConstraints turf s = (Ok tt, s') ->
  Forall (fun cell => exists l, cell = Some l /\
                      l < length (Main.arrays (Main.store s')) /\
                      0 < length (Main.arr (Main.store s') l))
         (Main.voronoiPolygons s').
Proof.
  unfold Main.applyConstraints, bind, modify.
  destruct (Main.clip_outer turf s) as [[[]|e] s1]; [|discriminate].
  destruct (Main.clip_inner turf s1) as [[[]|e] s2]; [|discriminate].
  intros [= <-]. simpl.
  apply Forall_forall. intros cell Hin.
  apply list_elem_of_In, filter_In in Hin as [_ Hkeeps].
  apply keeps_nonempty in Hkeeps as (l & -> & Hkeeps). exists l.
  split; [done|]. split; [|done].
  apply arr_nonempty_valid. intros E. rewrite E in Hkeeps. simpl in Hkeeps. lia.
Qed.

(** The theorem above on one cell that lies inside the outer polygon: the
    clipped cell, a new array of five points, is what remains. *)
Lemma applyConstraints_leaves_nonempty_cells_witness :
  Forall (fun cell => exists l, cell = Some l /\ l < 3 /\ 0 < length (Main.arr
            (Main.store (snd (Main.applyConstraints
               (Examples.turf_answering (Some [Examples.small_square]) None)
               Examples.cell_inside_outer))) l))
         [Some 2].
Proof.
  apply (applyConstraints_leaves_nonempty_cells
           (Examples.turf_answering (Some [Examples.small_square]) None)
           Examples.cell_inside_outer
           (snd (Main.applyConstraints
                   (Examples.turf_answering (Some [Examples.small_square]) None)
                   Examples.cell_inside_outer))).
  vm_compute. reflexivity.
Defined.

(** * Facts about the second program file *)

Section ListFacts.
Context {A : Type}.
Implicit Types (f g : A -> bool) (xs : list A).

Lemma filter_filter_andb f g xs :
  List.filter f (List.filter g xs) = List.filter (fun x => g x && f x) xs.
Proof.
  induction xs as [|x xs IH]; [done|]. simpl.
  destruct (g x); simpl; [|done]. destruct (f x); by rewrite IH.
Qed.

Lemma filter_idemp f xs : List.filter f (List.filter f xs) = List.filter f xs.
Proof.
  rewrite filter_filter_andb. apply filter_ext. intros x. by destruct (f x).
Qed.

Lemma update_at_prefix (g : A -> A) xs n :
  n <= length xs ->
  foldl (update_at g) xs (seq 0 n) = map g (take n xs) ++ drop n xs.
Proof.
  induction n as [|n IH]; intros Hn.
  - simpl. by rewrite drop_0.
  - rewrite seq_S, foldl_app, IH by lia. simpl.
    destruct (lookup_lt_is_Some_2 xs n) as [x Hx]; [lia|].
    unfold update_at.
    assert (Hlen : length (map g (take n xs)) = n).
    { rewrite length_map, length_take. lia. }
    rewrite lookup_app_r by lia. rewrite Hlen, Nat.sub_diag.
    rewrite (drop_S _ _ _ Hx). simpl.
    rewrite insert_app_r_alt by lia. rewrite Hlen, Nat.sub_diag. simpl.
    rewrite (take_S_r _ _ _ Hx), map_app. simpl.
    by rewrite <- (assoc_L (++)).
Qed.

Lemma update_at_all (g : A -> A) xs :
  foldl (update_at g) xs (seq 0 (length xs)) = map g xs.
Proof.
  rewrite update_at_prefix by lia.
  by rewrite firstn_all, drop_all, app_nil_r.
Qed.

Lemma update_at_twice (g1 g2 : A -> A) xs i :
  update_at g2 (update_at g1 xs i) i = update_at (fun x => g2 (g1 x)) xs i.
Proof.
  unfold update_at. destruct (xs !! i) as [x|] eqn:Hx.
  - rewrite list_lookup_insert_eq by (eapply lookup_lt_Some; eauto).
    by rewrite list_insert_insert_eq.
  - by rewrite Hx.
Qed.

Lemma update_at_ext (g1 g2 : A -> A) xs i :
  (forall x, g1 x = g2 x) -> update_at g1 xs i = update_at g2 xs i.
Proof. intros Hext. unfold update_at. destruct (xs !! i); [|done]. by rewrite Hext. Qed.

Lemma update_at_id xs i : update_at (fun x => x) xs i = xs.
Proof.
  unfold update_at. destruct (xs !! i) as [x|] eqn:Hx; [|done].
  by apply list_insert_id.
Qed.

End ListFacts.

Section AppFacts.
Variable gutils : App.geometry_api.
Implicit Types (s : App.state) (vp : list App.polygon).

Lemma state_eta s :
  App.State (App.stations s) (App.constraints_outer s) (App.constraints_inner s)
            (App.voronoiPolygons s) (App.boolMarkers s) (App.boolConstraints s)
            (App.dragStart s) (App.layers s) (App.markers s) = s.
Proof. by destruct s. Qed.

Lemma filter_each_obstacle (inside : App.Station -> bool) (inner : list App.polygon) s :
  foldl (fun s' polygon =>
           App.with_stations
             (List.filter (fun point => negb (App.pointInPolygon gutils point polygon))) s')
        (App.with_stations (List.filter inside) s) inner =
  App.with_stations
    (List.filter (fun point =>
       inside point &&
       forallb (fun obstacle => negb (App.pointInPolygon gutils point obstacle)) inner)) s.
Proof.
  revert inside. induction inner as [|obstacle inner IH]; intros inside.
  - simpl. unfold App.with_stations. f_equal. apply filter_ext.
    intros p. by rewrite andb_true_r.
  - simpl.
    change (App.with_stations
              (List.filter (fun point => negb (App.pointInPolygon gutils point obstacle)))
              (App.with_stations (List.filter inside) s))
      with (App.with_stations
              (fun st => List.filter
                           (fun point => negb (App.pointInPolygon gutils point obstacle))
                           (List.filter inside st)) s).
    assert (Hstep :
      App.with_stations
        (fun st => List.filter
                     (fun point => negb (App.pointInPolygon gutils point obstacle))
                     (List.filter inside st)) s =
      App.with_stations
        (List.filter (fun point =>
           inside point && negb (App.pointInPolygon gutils point obstacle))) s).
    { unfold App.with_stations. by rewrite filter_filter_andb. }
    rewrite Hstep, IH.
    unfold App.with_stations. f_equal. apply filter_ext.
    intros p. by rewrite andb_assoc.
Qed.

(** [applyConstraintsToPoints] as one filter. *)
Lemma applyConstraintsToPoints_eq s :
  App.applyConstraintsToPoints gutils s =
  if length (App.constraints_outer s) =? 0 then s
  else App.with_stations
         (List.filter (App.allowed gutils (App.constraints_outer s) (App.constraints_inner s)))
         s.
Proof.
  unfold App.applyConstraintsToPoints.
  destruct (length (App.constraints_outer s) =? 0); [done|].
  cbv zeta.
  change (App.constraints_inner (App.with_stations _ s)) with (App.constraints_inner s).
  apply filter_each_obstacle.
Qed.

Lemma clip_outer_at_eq (outer : App.polygon) vp i :
  App.clip_outer_at gutils outer vp i =
  update_at (fun cell => App.keep_unless_ring 3 cell (App.polygonIntersection gutils cell outer))
            vp i.
Proof.
  unfold App.clip_outer_at, update_at, App.keep_unless_ring.
  destruct (vp !! i) as [cell|] eqn:Hcell; [|done].
  destruct (App.polygonIntersection gutils cell outer) as [new_polygon|].
  - destruct (length new_polygon <? 3); [|done]. symmetry. by apply list_insert_id.
  - symmetry. by apply list_insert_id.
Qed.

Lemma minus_at_eq (obstacle : App.polygon) vp i :
  App.minus_at gutils i vp obstacle =
  update_at (fun cell => App.minus_obstacle gutils cell obstacle) vp i.
Proof.
  unfold App.minus_at, update_at, App.minus_obstacle, App.keep_unless_ring.
  destruct (vp !! i) as [cell|] eqn:Hcell; [|done].
  destruct (App.polygonMinus gutils cell obstacle) as [new_polygon|]; [done|].
  symmetry. by apply list_insert_id.
Qed.

Lemma clip_inner_at_eq (inner : list App.polygon) vp i :
  App.clip_inner_at gutils inner vp i =
  update_at (fun cell => foldl (App.minus_obstacle gutils) cell inner) vp i.
Proof.
  unfold App.clip_inner_at. revert vp.
  induction inner as [|obstacle inner IH] using rev_ind; intros vp.
  - simpl. by rewrite update_at_id.
  - rewrite foldl_app. simpl. rewrite IH, minus_at_eq, update_at_twice.
    apply update_at_ext. intros cell. by rewrite foldl_app.
Qed.
Lemma foldl_pointwise {B C : Type} (f g : B -> C -> B) (b : B) (cs : list C) :
  (forall b' c, f b' c = g b' c) -> foldl f b cs = foldl g b cs.
Proof.
  intros Hfg. revert b. induction cs as [|c cs IH]; intros b; [done|].
  simpl. by rewrite Hfg, IH.
Qed.

(** The two in-place loops of [applyConstraintsToVoronoi] as one map. *)
Lemma applyConstraintsToVoronoi_eq s :
  App.applyConstraintsToVoronoi gutils s =
  App.with_voronoiPolygons
    (fun _ => map (App.clipped_cell gutils (App.constraints_outer s) (App.constraints_inner s))
                  (App.voronoiPolygons s)) s.
Proof.
  unfold App.applyConstraintsToVoronoi. cbv zeta.
  rewrite (foldl_pointwise _ _ _ _ (clip_outer_at_eq (App.constraints_outer s))).
  rewrite update_at_all.
  rewrite (foldl_pointwise _ _ _ _ (clip_inner_at_eq (App.constraints_inner s))).
  rewrite update_at_all, map_map. done.
Qed.

Lemma addPolygons_eq (ps : list App.polygon) (c : color) (fill : bool) s :
  App.addPolygons ps c fill s =
  App.with_layers (fun ls => ls ++ map (fun points => Layer points c fill) ps) s.
Proof.
  unfold App.addPolygons. revert s.
  induction ps as [|points ps IH]; intros s.
  - simpl. unfold App.with_layers. rewrite app_nil_r. symmetry. apply state_eta.
  - simpl. rewrite IH. unfold App.addPolygon, App.with_layers. simpl.
    by rewrite <- (assoc_L (++)).
Qed.

End AppFacts.

(** C1, as amended.  In the second file [applyConstraintsToVoronoi]
    treats every cell, in place and in order, and drops none: a cell keeps
    its polygon when its intersection with the outer polygon is absent or
    has fewer than 3 points; against an obstacle it keeps its polygon only
    when the difference is absent, and any ring that [polygonMinus]
    returns replaces it, whatever its length.  In [src/main.ts] both loops
    replace the cell by any array that the clip returns, whatever its
    length, and keep the cell only when the clip returns [undefined]. *)
Theorem clipped_cells_replace_or_keep (gutils : App.geometry_api) (s : App.state) :
  let outer := App.constraints_outer s in
  let inner := App.constraints_inner s in
  let s' := App.applyConstraintsToVoronoi gutils s in
  App.voronoiPolygons s' = map (App.clipped_cell gutils outer inner) (App.voronoiPolygons s) /\
  (forall cell,
      App.polygonIntersection gutils cell outer = None \/
      (exists r, App.polygonIntersection gutils cell outer = Some r /\ length r < 3) ->
      App.clipped_cell gutils outer inner cell = foldl (App.minus_obstacle gutils) cell inner) /\
  (forall cell r,
      App.polygonIntersection gutils cell outer = Some r -> 3 <= length r ->
      App.clipped_cell gutils outer inner cell = foldl (App.minus_obstacle gutils) r inner) /\
  (forall cell obstacle,
      App.polygonMinus gutils cell obstacle = None ->
      App.minus_obstacle gutils cell obstacle = cell) /\
  (forall cell obstacle r,
      App.polygonMinus gutils cell obstacle = Some r ->
      App.minus_obstacle gutils cell obstacle = r) /\
  (forall (clip : Main.loc -> Main.loc -> M Main.heap Main.value)
          (i : nat) (other cell : Main.loc) (m : Main.state),
      Main.voronoiPolygons m !! i = Some (Some cell) ->
      Main.clip_cell clip i other m =
        match clip cell other (Main.store m) with
        | (Ok (Main.VArray l), h) =>
            (Ok tt, Main.with_voronoiPolygons (fun vp => <[i := Some l]> vp)
                      (Main.with_store (fun _ => h) m))
        | (Ok Main.VUndefined, h) => (Ok tt, Main.with_store (fun _ => h) m)
        | (Throw e, h) => (Throw e, Main.with_store (fun _ => h) m)
        end).
Proof.
  intros outer inner s'. subst s'. rewrite applyConstraintsToVoronoi_eq.
  split; [done|]. unfold App.clipped_cell, App.minus_obstacle, App.keep_unless_ring.
  repeat split.
  - intros cell [-> | (r & -> & Hr)]; [done|].
    apply Nat.ltb_lt in Hr. by rewrite Hr.
  - intros cell r -> Hr. apply Nat.ltb_ge in Hr. by rewrite Hr.
  - by intros cell obstacle ->.
  - by intros cell obstacle r ->.
  - intros clip i other cell m Hcell.
    unfold Main.clip_cell, bind, gets, Main.on_store. rewrite Hcell.
    destruct (clip cell other (Main.store m)) as [[[|l]|e] h]; reflexivity.
Qed.

(** Two clips of fewer than 3 points that take the cell's place.  In the
    second file, a cell under an obstacle that covers it: the difference is
    the empty ring, and the cell becomes the empty ring.  In
    [src/main.ts], a cell that does not meet the outer polygon: it is
    replaced by the empty array that [polygonIntersection] returns, and
    the final filter then removes it. *)
Lemma degenerate_clip_replaces_cell :
  (let gutils := Examples.gutils_answering None (Some []) in
   let s := Examples.cell_under_obstacle in
   App.voronoiPolygons s = [Examples.unit_square] /\
   App.polygonMinus gutils Examples.unit_square Examples.large_square = Some [] /\
   App.voronoiPolygons (App.applyConstraintsToVoronoi gutils s) = [[]]) /\
  (let turf := Examples.turf_answering None None in
   let s := Examples.cell_outside_outer in
   Main.voronoiPolygons s = [Some 0] /\
   Main.arr (Main.store s) 0 = [0; 1; 2] /\
   Main.voronoiPolygons (snd (Main.clip_outer turf s)) = [Some 2] /\
   Main.arr (Main.store (snd (Main.clip_outer turf s))) 2 = [] /\
   fst (Main.applyConstraints turf s) = Ok tt /\
   Main.voronoiPolygons (snd (Main.applyConstraints turf s)) = []).
Proof. vm_compute. done. Qed.

(** The points that [applyConstraintsToPoints] keeps are those of the
    stations, in their order, that the constraints allow. *)
Lemma applyConstraintsToPoints_elem_of (gutils : App.geometry_api) (s : App.state)
  (p : App.Station) :
  App.constraints_outer s <> [] ->
  p ∈ App.stations (App.applyConstraintsToPoints gutils s) <->
  p ∈ App.stations s /\
  App.pointInPolygon gutils p (App.constraints_outer s) = true /\
  forall obstacle, obstacle ∈ App.constraints_inner s ->
                   App.pointInPolygon gutils p obstacle = false.
Proof.
  intros Houter. rewrite applyConstraintsToPoints_eq.
  destruct (App.constraints_outer s) as [|a outer] eqn:E; [done|]. simpl.
  rewrite !list_elem_of_In, filter_In. unfold App.allowed.
  rewrite andb_true_iff, forallb_forall.
  split.
  - intros (Hin & Hout & Hinner). repeat split; try done.
    intros obstacle Hobs%list_elem_of_In. apply Hinner in Hobs.
    by apply negb_true_iff.
  - intros (Hin & Hout & Hinner). repeat split; try done.
    intros obstacle Hobs%list_elem_of_In. apply negb_true_iff. by apply Hinner.
Qed.

(** C5: with an empty outer polygon [applyConstraintsToPoints] changes
    nothing; otherwise it keeps, in order, exactly the stations that lie
    in the outer polygon and in no inner polygon, and touches nothing
    else. *)
Theorem applyConstraintsToPoints_filters (gutils : App.geometry_api) (s : App.state) :
  let s' := App.applyConstraintsToPoints gutils s in
  (App.constraints_outer s = [] -> s' = s) /\
  (App.constraints_outer s <> [] ->
   s' = App.with_stations (fun _ => App.stations s') s /\
   App.stations s' =
     List.filter
       (fun point =>
          App.pointInPolygon gutils point (App.constraints_outer s) &&
          forallb (fun obstacle => negb (App.pointInPolygon gutils point obstacle))
                  (App.constraints_inner s))
       (App.stations s) /\
   forall p, p ∈ App.stations s' <->
             p ∈ App.stations s /\
             App.pointInPolygon gutils p (App.constraints_outer s) = true /\
             forall obstacle, obstacle ∈ App.constraints_inner s ->
                              App.pointInPolygon gutils p obstacle = false).
Proof.
  intros s'. subst s'. split.
  - intros E. rewrite applyConstraintsToPoints_eq. by rewrite E.
  - intros Houter. split; [|split].
    + rewrite applyConstraintsToPoints_eq.
      destruct (App.constraints_outer s) as [|a outer] eqn:E; [done|]. by simpl.
    + rewrite applyConstraintsToPoints_eq.
      destruct (App.constraints_outer s) as [|a outer] eqn:E; [done|]. by simpl.
    + intros p. by apply applyConstraintsToPoints_elem_of.
Qed.

Section UpdateFacts.
Variable gutils : App.geometry_api.
Implicit Types (s : App.state).

(** What [draw] leaves on the map depends on the cells, the constraints,
    the two flags and the stations, not on what was shown before. *)
Lemma draw_eq (bounds : App.Bounds) s :
  App.draw gutils bounds s =
  App.State (App.stations s) (App.constraints_outer s) (App.constraints_inner s)
    (App.voronoiPolygons s) (App.boolMarkers s) (App.boolConstraints s) (App.dragStart s)
    ((map (fun points => Layer points Blue false) (App.voronoiPolygons s) ++
      (if App.boolConstraints s
       then Layer (App.constraints_outer s) Red false ::
            map (fun points => Layer points Red true) (App.constraints_inner s)
       else [])) ++
     [Layer (App.polygonFromBounds gutils bounds) Green false])
    (if App.boolMarkers s then App.stations s else []).
Proof.
  unfold App.draw. cbv zeta. rewrite !addPolygons_eq.
  destruct s as [st outer inner vp bm bc ds ls ms]. simpl.
  destruct bc; simpl.
  - unfold App.addPolygon, App.with_layers. simpl.
    destruct bm; simpl; unfold App.with_markers; simpl;
      by rewrite <- !(assoc_L (++)).
  - unfold App.addPolygon, App.with_layers. simpl.
    destruct bm; simpl; unfold App.with_markers; simpl; by rewrite app_nil_r.
Qed.



(** With at least one station, what [update] returns depends only on the
    stations, the constraints, the flags and the recorded drag start, and
    not on the cells, layers and markers left by earlier calls. *)
Lemma update_from_inputs_alone s1 s2 :
  App.stations s1 = App.stations s2 ->
  App.constraints_outer s1 = App.constraints_outer s2 ->
  App.constraints_inner s1 = App.constraints_inner s2 ->
  App.boolMarkers s1 = App.boolMarkers s2 ->
  App.boolConstraints s1 = App.boolConstraints s2 ->
  App.dragStart s1 = App.dragStart s2 ->
  App.stations s1 <> [] ->
  App.update gutils s1 = App.update gutils s2.
Proof.
  destruct s1 as [st outer inner vp1 bm bc ds ls1 ms1].
  destruct s2 as [st2 outer2 inner2 vp2 bm2 bc2 ds2 ls2 ms2]. simpl.
  intros <- <- <- <- <- <- Hst.
  unfold App.update. simpl.
  destruct st as [|p st]; [done|]. simpl (length _ =? 0).
  destruct bc.
  - rewrite !applyConstraintsToPoints_eq. simpl.
    destruct (length outer =? 0); simpl.
    + destruct (App.voronoi gutils (p :: st) (App.OfPolygon outer)) as [cells bounds].
      by rewrite !applyConstraintsToVoronoi_eq, !draw_eq.
    + destruct (App.voronoi gutils _ (App.OfPolygon outer)) as [cells bounds].
      by rewrite !applyConstraintsToVoronoi_eq, !draw_eq.
  - destruct (App.voronoi gutils (p :: st) (App.OfStations (p :: st))) as [cells bounds].
    by rewrite !draw_eq.
Qed.

End UpdateFacts.


(** * Re-identifying a dragged station *)

Section LookupFacts.
Context {A : Type}.
Implicit Types (p : A -> bool) (xs : list A).

(** [findIndex] returns the first index whose element satisfies [p]. *)
Lemma findIndex_Some p xs i :
  findIndex p xs = Some i ->
  exists x, xs !! i = Some x /\ p x = true /\
            forall j y, j < i -> xs !! j = Some y -> p y = false.
Proof.
  revert i. induction xs as [|x xs IH]; intros i; [done|]. simpl.
  destruct (p x) eqn:Hpx.
  - intros [= <-]. exists x. repeat split; try done. intros j y Hj. lia.
  - destruct (findIndex p xs) as [k|]; [|done]. simpl. intros [= <-].
    destruct (IH k eq_refl) as (y & Hy & Hpy & Hfirst).
    exists y. repeat split; try done.
    intros [|j] z Hj; simpl.
    + by intros [= <-].
    + apply Hfirst. lia.
Qed.

Lemma findIndex_None p xs : findIndex p xs = None <-> matches p xs = 0.
Proof.
  unfold matches. induction xs as [|x xs IH]; [done|]. simpl.
  destruct (p x); simpl; [done|].
  rewrite <- IH. by destruct (findIndex p xs).
Qed.


End LookupFacts.

Section NumberFacts.

Lemma num_eqb_true (a b : Q) : num_eqb a b = true <-> (a == b)%Q.
Proof. apply Qeq_bool_iff. Qed.

Lemma num_ltb_true (a b : Q) : num_ltb a b = true <-> (a < b)%Q.
Proof.
  unfold num_ltb. rewrite negb_true_iff. split.
  - intros H. apply Qnot_le_lt. intros Hle. apply Qle_bool_iff in Hle. congruence.
  - intros H. destruct (Qle_bool b a) eqn:E; [|done].
    apply Qle_bool_iff in E. exfalso. by apply (Qlt_not_le a b).
Qed.

Lemma Qabs_diff_of_equal (a b eps : Q) : (a == b)%Q -> (0 < eps)%Q -> (Qabs (a - b) < eps)%Q.
Proof.
  intros Hab Heps. apply Qabs_Qlt_condition.
  assert (Hzero : (a - b == 0)%Q).
  { unfold Qminus. rewrite Hab. apply Qplus_opp_r. }
  rewrite Hzero. split; [|done].
  apply (Qplus_lt_l _ _ eps). by rewrite Qplus_0_l, Qplus_comm, Qplus_opp_r.
Qed.

End NumberFacts.

(** [pointsEqual], as modelled from the spec, is the tolerance test. *)
Lemma pointsEqual_tolerance (eps : Q) (a b : position) :
  App.pointsEqual eps a b = true <-> tolerance_equal eps a b.
Proof.
  unfold App.pointsEqual, tolerance_equal.
  by rewrite andb_true_iff, !num_ltb_true.
Qed.

(** C8, as amended: [src/main.ts] re-identifies the dragged station by
    exact equality of both coordinates, with no tolerance.  Positions that
    are equal in this sense are tolerance-equal for every positive
    epsilon; the converse fails. *)
Theorem same_place_is_exact_equality (d p : Main.station) :
  (Main.same_place d p = true <->
   same_position (Main.lat p, Main.lng p) (Main.lat d, Main.lng d)) /\
  (forall eps : Q, (0 < eps)%Q -> Main.same_place d p = true ->
     tolerance_equal eps (Main.lat p, Main.lng p) (Main.lat d, Main.lng d)).
Proof.
  assert (Hexact : Main.same_place d p = true <->
                   same_position (Main.lat p, Main.lng p) (Main.lat d, Main.lng d)).
  { unfold Main.same_place, same_position. simpl.
    by rewrite andb_true_iff, !num_eqb_true. }
  split; [done|].
  intros eps Heps [Hlat Hlng]%Hexact. simpl in Hlat, Hlng.
  split; simpl; by apply Qabs_diff_of_equal.
Qed.

(** Two positions 1e-12 apart are equal within the tolerance 1e-9, and
    the spec's [pointsEqual] accepts them, but the test of [src/main.ts]
    does not. *)
Lemma same_place_rejects_within_tolerance :
  let d := Main.Station None 0 0 in
  let p := Main.Station None (1 # 1000000000000) 0 in
  tolerance_equal (1 # 1000000000) (Main.lat p, Main.lng p) (Main.lat d, Main.lng d) /\
  App.pointsEqual (1 # 1000000000) (Main.lat p, Main.lng p) (Main.lat d, Main.lng d) = true /\
  Main.same_place d p = false.
Proof. repeat split. Qed.




(** In the second file the same lookup, when it finds no station, makes
    the handler throw before anything is updated. *)
Lemma App_dragend_without_match_throws
  (gutils : App.geometry_api) (epsilon : Q) (d latlng : position) (s : App.state) :
  App.dragStart s = Some d ->
  matches (fun p => App.pointsEqual epsilon (App.position_of p) d) (App.stations s) = 0 ->
  App.dragend gutils epsilon latlng s = (Throw TypeError, s).
Proof.
  intros Hstart Hnone%findIndex_None.
  unfold App.dragend, bind, gets. by rewrite Hstart, Hnone.
Qed.

(** * Further facts about [src/main.ts] *)

Section LoopFacts.
Context {S A : Type}.

(** What every pass of a loop body keeps, whether it returns or throws,
    the loop keeps. *)
Lemma for_each_invariant (P : S -> Prop) (body : A -> M S unit) (xs : list A) (s : S) :
  P s ->
  (forall x s0, P s0 -> P (snd (body x s0))) ->
  P (snd (for_each body xs s)).
Proof.
  intros Hs Hbody. revert s Hs.
  induction xs as [|x xs IH]; intros s Hs; [done|].
  simpl. unfold bind. specialize (Hbody x s Hs).
  destruct (body x s) as [[[]|e] s1]; simpl in *; [by apply IH|done].
Qed.

(** A loop over [xs ++ ys] runs over [ys] when it has returned from
    [xs], and stops where the run over [xs] throws. *)
Lemma for_each_app (body : A -> M S unit) (xs ys : list A) (s : S) :
  for_each body (xs ++ ys) s =
  match for_each body xs s with
  | (Ok _, s') => for_each body ys s'
  | (Throw e, s') => (Throw e, s')
  end.
Proof.
  revert s. induction xs as [|x xs IH]; intros s; [done|].
  simpl. unfold bind. destruct (body x s) as [[[]|e] s1]; [apply IH|done].
Qed.

End LoopFacts.

Section HeapGrowth.
Variable turf : turf_api.
Implicit Types (h : Main.heap) (l : Main.loc).

Lemma heap_extends_refl h : Main.heap_extends h h.
Proof. by split. Qed.

Lemma heap_extends_trans h1 h2 h3 :
  Main.heap_extends h1 h2 -> Main.heap_extends h2 h3 -> Main.heap_extends h1 h3.
Proof. intros [Hp1 Ha1] [Hp2 Ha2]. split; [by etrans|lia]. Qed.

Lemma heap_extends_closePolygons (ls : list Main.loc) h :
  Main.heap_extends h (Main.closePolygons ls h).
Proof.
  revert h. induction ls as [|l ls IH]; intros h; [apply heap_extends_refl|].
  simpl. eapply heap_extends_trans; [|apply IH].
  split; [by rewrite closePolygon_points|by rewrite closePolygon_arrays_length].
Qed.

Lemma heap_extends_orient l h : Main.heap_extends h (Main.orient turf l h).
Proof. split; [by rewrite orient_points|by rewrite orient_arrays_length]. Qed.

Lemma heap_extends_alloc_ring (r : list position) h :
  Main.heap_extends h (snd (Main.alloc_ring r h)).
Proof.
  split; simpl; [by apply prefix_app_r|]. rewrite length_app. lia.
Qed.

Lemma heap_extends_polygonIntersection l1 l2 h :
  Main.heap_extends h (snd (Main.polygonIntersection turf l1 l2 h)).
Proof.
  rewrite polygonIntersection_eq. cbv zeta.
  pose proof (heap_extends_closePolygons [l1; l2] h) as Hclosed.
  destruct (Main.too_short l1 l2 _); [done|].
  destruct (negb _); [done|]. destruct (negb _); [done|].
  assert (Horiented : Main.heap_extends h
            (Main.orient turf l2 (Main.orient turf l1 (Main.closePolygons [l1; l2] h)))).
  { eapply heap_extends_trans; [exact Hclosed|].
    eapply heap_extends_trans; apply heap_extends_orient. }
  destruct (intersect turf _ _) as [[|r g]|]; simpl; try done;
    (eapply heap_extends_trans; [exact Horiented|apply heap_extends_alloc_ring]).
Qed.

Lemma heap_extends_removeIntersection l1 l2 h :
  Main.heap_extends h (snd (Main.removeIntersection turf l1 l2 h)).
Proof.
  rewrite removeIntersection_eq. cbv zeta.
  pose proof (heap_extends_closePolygons [l1; l2] h) as Hclosed.
  destruct (Main.too_short l1 l2 _); [done|].
  destruct (negb _); [done|]. destruct (negb _); [done|].
  assert (Horiented : Main.heap_extends h
            (Main.orient turf l2 (Main.orient turf l1 (Main.closePolygons [l1; l2] h)))).
  { eapply heap_extends_trans; [exact Hclosed|].
    eapply heap_extends_trans; apply heap_extends_orient. }
  destruct (intersect turf _ _) as [i|]; [|done].
  destruct (difference turf _ i) as [[|r g]|]; simpl; try done.
  eapply heap_extends_trans; [exact Horiented|apply heap_extends_alloc_ring].
Qed.

End HeapGrowth.

Section ClosingCells.
Implicit Types (h : Main.heap) (l : Main.loc) (ls : list Main.loc).

(** [closePolygons] closes each array it is given and no other. *)
Lemma closePolygons_arr ls h l :
  Main.arr (Main.closePolygons ls h) l =
  if decide (l ∈ ls) then Main.closed_ring (Main.arr h l) else Main.arr h l.
Proof.
  revert h. induction ls as [|l0 ls IH]; intros h.
  - destruct (decide (l ∈ [])) as [Hin|_]; [|done]. by apply not_elem_of_nil in Hin.
  - change (Main.closePolygons (l0 :: ls) h)
      with (Main.closePolygons ls (Main.closePolygon l0 h)).
    rewrite IH. destruct (decide (l = l0)) as [->|Hne].
    + rewrite closePolygon_arr.
      rewrite (decide_True (P := l0 ∈ l0 :: ls)) by apply list_elem_of_here.
      destruct (decide (l0 ∈ ls)); [|done].
      unfold Main.closed_ring at 1.
      by rewrite decide_True by apply closed_ring_closed.
    + rewrite closePolygon_arr_other by done.
      destruct (decide (l ∈ ls)) as [Hin|Hin].
      * by rewrite decide_True by (by apply list_elem_of_further).
      * rewrite decide_False; [done|].
        intros [->|Hin']%elem_of_cons; done.
Qed.

Lemma closePolygon_empty h l : Main.arr h l = [] -> Main.closePolygon l h = h.
Proof. intros E. unfold Main.closePolygon. by rewrite E. Qed.

Lemma closePolygon_keeps_empty h l l' :
  Main.arr h l' = [] -> Main.arr (Main.closePolygon l h) l' = [].
Proof.
  intros E. destruct (decide (l = l')) as [->|Hne].
  - by rewrite closePolygon_empty.
  - by rewrite closePolygon_arr_other.
Qed.

Lemma foldl_lookup_seq {B C : Type} (f : C -> B -> B) (d : C) (xs pre : list C) (b : B) :
  foldl (fun b' i => f (default d ((pre ++ xs) !! i)) b') b (seq (length pre) (length xs))
  = foldl (fun b' x => f x b') b xs.
Proof.
  revert pre b. induction xs as [|x xs IH]; intros pre b; [done|].
  simpl. rewrite lookup_app_r by lia. rewrite Nat.sub_diag. simpl.
  specialize (IH (pre ++ [x]) (f x b)).
  rewrite <- (assoc_L (++)), length_app in IH. simpl in IH.
  by replace (length pre + 1) with (S (length pre)) in IH by lia.
Qed.

End ClosingCells.

Section RingsKept.
Variable turf : turf_api.
Implicit Types (h : Main.heap) (l : Main.loc) (v w u : list Main.ref).

Lemma closed_ring_idemp v : Main.closed_ring (Main.closed_ring v) = Main.closed_ring v.
Proof.
  unfold Main.closed_ring at 1. by rewrite decide_True by apply closed_ring_closed.
Qed.

Lemma rev_first v : rev v !! 0 = last v.
Proof.
  induction v as [|a v _] using rev_ind; [done|].
  by rewrite rev_unit, last_snoc.
Qed.

Lemma rev_last v : last (rev v) = v !! 0.
Proof. destruct v as [|a v]; [done|]. simpl. by rewrite last_snoc. Qed.

(** A closed ring read backwards is closed. *)
Lemma closed_ring_rev v :
  Main.closed_ring (rev (Main.closed_ring v)) = rev (Main.closed_ring v).
Proof.
  unfold Main.closed_ring at 1. rewrite decide_True; [done|].
  rewrite rev_first, rev_last. symmetry. apply closed_ring_closed.
Qed.

Lemma ring_kept_refl v : Main.ring_kept v v.
Proof. by left. Qed.

(** Closing and reversing again gives nothing new. *)
Lemma ring_kept_trans v w u :
  Main.ring_kept v w -> Main.ring_kept w u -> Main.ring_kept v u.
Proof.
  intros [-> | [-> | ->]] Hu; [done| |].
  - destruct Hu as [-> | [-> | ->]].
    + right. by left.
    + rewrite closed_ring_idemp. right. by left.
    + rewrite closed_ring_idemp. right. by right.
  - destruct Hu as [-> | [-> | ->]].
    + right. by right.
    + rewrite closed_ring_rev. right. by right.
    + rewrite closed_ring_rev, rev_involutive. right. by left.
Qed.

Lemma orient_keeps_closed h l l' v :
  Main.arr h l' = Main.closed_ring v \/ Main.arr h l' = rev (Main.closed_ring v) ->
  Main.arr (Main.orient turf l h) l' = Main.closed_ring v \/
  Main.arr (Main.orient turf l h) l' = rev (Main.closed_ring v).
Proof.
  intros Hclosed. destruct (decide (l = l')) as [->|Hne].
  - destruct (orient_arr turf h l') as [-> | ->]; [done|].
    destruct Hclosed as [-> | ->]; [by right|]. left. apply rev_involutive.
  - by rewrite orient_arr_other.
Qed.

(** What the two heaps that a clipping function works on hold of an array
    of the heap it was called on. *)
Lemma prepared_ring_kept l1 l2 h l :
  let h1 := Main.closePolygons [l1; l2] h in
  Main.ring_kept (Main.arr h l) (Main.arr h1 l) /\
  Main.ring_kept (Main.arr h l)
                 (Main.arr (Main.orient turf l2 (Main.orient turf l1 h1)) l).
Proof.
  intros h1. pose proof (closePolygons_arr [l1; l2] h l) as Hclosed. fold h1 in Hclosed.
  destruct (decide (l ∈ [l1; l2])) as [Hin|Hout].
  - split; [right; by left|]. right.
    by apply orient_keeps_closed, orient_keeps_closed; left.
  - assert (Hne1 : l1 <> l) by (intros ->; apply Hout, list_elem_of_here).
    assert (Hne2 : l2 <> l)
      by (intros ->; apply Hout, list_elem_of_further, list_elem_of_here).
    split; [by left|]. left. by rewrite !orient_arr_other.
Qed.

Lemma ring_kept_alloc (r : list position) h l v :
  l < length (Main.arrays h) ->
  Main.ring_kept v (Main.arr h l) ->
  Main.ring_kept v (Main.arr (snd (Main.alloc_ring r h)) l).
Proof. intros Hl Hkept. by rewrite alloc_ring_arr_old. Qed.

Lemma heap_kept_refl h : Main.heap_kept h h.
Proof. split; [apply heap_extends_refl|]. intros l _. apply ring_kept_refl. Qed.

Lemma heap_kept_trans h1 h2 h3 :
  Main.heap_kept h1 h2 -> Main.heap_kept h2 h3 -> Main.heap_kept h1 h3.
Proof.
  intros [Hext1 Hkept1] [Hext2 Hkept2]. split; [by eapply heap_extends_trans|].
  intros l Hl. eapply ring_kept_trans; [by apply Hkept1|].
  apply Hkept2. destruct Hext1 as [_ Hlen]. lia.
Qed.

(** A heap that only got new arrays keeps the arrays it had. *)
Lemma heap_kept_new_arrays h h' :
  Main.heap_extends h h' ->
  (forall l, l < length (Main.arrays h) -> Main.arr h' l = Main.arr h l) ->
  Main.heap_kept h h'.
Proof. intros Hext Hold. split; [done|]. intros l Hl. left. by apply Hold. Qed.

Lemma heap_kept_polygonIntersection l1 l2 h :
  Main.heap_kept h (snd (Main.polygonIntersection turf l1 l2 h)).
Proof.
  split; [apply heap_extends_polygonIntersection|]. intros l Hl.
  destruct (prepared_ring_kept l1 l2 h l) as [Hclosed Horiented].
  cbv zeta in Hclosed, Horiented.
  assert (Hl2 : l < length (Main.arrays
            (Main.orient turf l2 (Main.orient turf l1 (Main.closePolygons [l1; l2] h)))))
    by (by rewrite oriented_arrays_length, closePolygons_arrays_length).
  rewrite polygonIntersection_eq. cbv zeta.
  destruct (Main.too_short l1 l2 _); [done|].
  destruct (negb _); [done|]. destruct (negb _); [done|].
  destruct (intersect turf _ _) as [[|r g]|]; cbn [snd]; [done| |];
    by apply ring_kept_alloc.
Qed.

Lemma heap_kept_removeIntersection l1 l2 h :
  Main.heap_kept h (snd (Main.removeIntersection turf l1 l2 h)).
Proof.
  split; [apply heap_extends_removeIntersection|]. intros l Hl.
  destruct (prepared_ring_kept l1 l2 h l) as [Hclosed Horiented].
  cbv zeta in Hclosed, Horiented.
  assert (Hl2 : l < length (Main.arrays
            (Main.orient turf l2 (Main.orient turf l1 (Main.closePolygons [l1; l2] h)))))
    by (by rewrite oriented_arrays_length, closePolygons_arrays_length).
  rewrite removeIntersection_eq. cbv zeta.
  destruct (Main.too_short l1 l2 _); [done|].
  destruct (negb _); [done|]. destruct (negb _); [done|].
  destruct (intersect turf _ _) as [i|]; [|done].
  destruct (difference turf _ i) as [[|r g]|]; cbn [snd]; [done| |done].
  by apply ring_kept_alloc.
Qed.

End RingsKept.

Section ClipLoops.
Variable turf : turf_api.
Implicit Types (s : Main.state).

(** What the clipping loops keep of the state they started from. *)
Lemma only_cells_changed_refl s : Main.only_cells_changed s s.
Proof. by repeat split. Qed.

Lemma clip_cell_keeps (clip : Main.loc -> Main.loc -> M Main.heap Main.value)
  (i : nat) (other : Main.loc) (s0 s : Main.state) :
  (forall l1 l2 h, Main.heap_kept h (snd (clip l1 l2 h))) ->
  Main.only_cells_changed s0 s /\
  length (Main.voronoiPolygons s) = length (Main.voronoiPolygons s0) /\
  Main.heap_kept (Main.store s0) (Main.store s) ->
  Main.only_cells_changed s0 (snd (Main.clip_cell clip i other s)) /\
  length (Main.voronoiPolygons (snd (Main.clip_cell clip i other s)))
    = length (Main.voronoiPolygons s0) /\
  Main.heap_kept (Main.store s0) (Main.store (snd (Main.clip_cell clip i other s))).
Proof.
  intros Hclip (Hsame & Hlen & Hheap).
  unfold Main.clip_cell, bind, gets, throw, Main.on_store.
  destruct (Main.voronoiPolygons s !! i) as [[cell|]|]; [|done|done].
  specialize (Hclip cell other (Main.store s)).
  destruct (clip cell other (Main.store s)) as [[[|l]|e] h]; simpl in *.
  - split; [done|]. split; [done|]. by eapply heap_kept_trans.
  - split; [done|]. split; [by rewrite length_insert|]. by eapply heap_kept_trans.
  - split; [done|]. split; [done|]. by eapply heap_kept_trans.
Qed.

Lemma clip_outer_keeps s :
  Main.only_cells_changed s (snd (Main.clip_outer turf s)) /\
  length (Main.voronoiPolygons (snd (Main.clip_outer turf s)))
    = length (Main.voronoiPolygons s) /\
  Main.heap_kept (Main.store s) (Main.store (snd (Main.clip_outer turf s))).
Proof.
  unfold Main.clip_outer, bind at 1, gets at 1, for_range.
  apply (for_each_invariant
           (fun s' => Main.only_cells_changed s s' /\
                      length (Main.voronoiPolygons s') = length (Main.voronoiPolygons s) /\
                      Main.heap_kept (Main.store s) (Main.store s'))).
  - split; [apply only_cells_changed_refl|]. split; [done|apply heap_kept_refl].
  - intros i s1 H1. unfold bind, gets.
    apply clip_cell_keeps; [|done]. apply heap_kept_polygonIntersection.
Qed.

Lemma clip_inner_keeps s :
  Main.only_cells_changed s (snd (Main.clip_inner turf s)) /\
  length (Main.voronoiPolygons (snd (Main.clip_inner turf s)))
    = length (Main.voronoiPolygons s) /\
  Main.heap_kept (Main.store s) (Main.store (snd (Main.clip_inner turf s))).
Proof.
  unfold Main.clip_inner, bind at 1, gets at 1, for_range.
  apply (for_each_invariant
           (fun s' => Main.only_cells_changed s s' /\
                      length (Main.voronoiPolygons s') = length (Main.voronoiPolygons s) /\
                      Main.heap_kept (Main.store s) (Main.store s'))).
  - split; [apply only_cells_changed_refl|]. split; [done|apply heap_kept_refl].
  - intros i s1 H1. unfold bind at 1, gets at 1.
    apply (for_each_invariant
             (fun s' => Main.only_cells_changed s s' /\
                        length (Main.voronoiPolygons s') = length (Main.voronoiPolygons s) /\
                        Main.heap_kept (Main.store s) (Main.store s'))); [done|].
    intros obstacle s2 H2.
    apply clip_cell_keeps; [|done]. apply heap_kept_removeIntersection.
Qed.

Lemma only_cells_changed_trans s1 s2 s3 :
  Main.only_cells_changed s1 s2 -> Main.only_cells_changed s2 s3 ->
  Main.only_cells_changed s1 s3.
Proof.
  intros (H1 & H2 & H3 & H4 & H5 & H6) (K1 & K2 & K3 & K4 & K5 & K6).
  repeat split; congruence.
Qed.

End ClipLoops.

Lemma applyConstraints_frame (turf : turf_api) (s : Main.state) :
  let s' := snd (Main.applyConstraints turf s) in
  Main.only_cells_changed s s' /\
  length (Main.voronoiPolygons s') <= length (Main.voronoiPolygons s) /\
  Main.heap_kept (Main.store s) (Main.store s').
Proof.
  cbv zeta. unfold Main.applyConstraints, bind, modify.
  destruct (clip_outer_keeps turf s) as (Hsame1 & Hlen1 & Hheap1).
  destruct (Main.clip_outer turf s) as [[[]|e] s1]; simpl in *;
    [|split; [done|]; split; [lia|done]].
  destruct (clip_inner_keeps turf s1) as (Hsame2 & Hlen2 & Hheap2).
  destruct (Main.clip_inner turf s1) as [[[]|e] s2]; simpl in *.
  - split; [by eapply only_cells_changed_trans|].
    split; [|by eapply heap_kept_trans].
    rewrite <- Hlen1, <- Hlen2. apply filter_length_le.
  - split; [by eapply only_cells_changed_trans|].
    split; [lia|by eapply heap_kept_trans].
Qed.

(** X1: whether [applyConstraints] returns or throws, the stations, the
    recorded drag start and the map layers are as they were, the
    constraints are the same arrays, and no cell is added.  In the heap
    every point keeps its coordinates and every array stays in its place;
    the arrays that were there, those of the constraints among them, hold
    what they held, or that closed, or that closed and reversed: this is
    how the call can change the constraint polygons. *)
Theorem applyConstraints_changes_cells_only (turf : turf_api) (s : Main.state) :
  let s' := snd (Main.applyConstraints turf s) in
  Main.only_cells_changed s s' /\
  length (Main.voronoiPolygons s') <= length (Main.voronoiPolygons s) /\
  Main.heap_kept (Main.store s) (Main.store s').
Proof. apply applyConstraints_frame. Qed.

(** One call on a cell inside an open outer polygon: the outer polygon is
    the same array afterwards, and holds one element more. *)
Lemma applyConstraints_closes_the_outer_polygon :
  let turf := Examples.turf_answering (Some [Examples.small_square]) None in
  let s := Examples.cell_inside_outer in
  let s' := snd (Main.applyConstraints turf s) in
  Main.constraints_outer s = 1 /\
  Main.constraints_outer s' = 1 /\
  Main.arr (Main.store s) 1 = [4; 5; 6; 7] /\
  Main.arr (Main.store s') 1 = [4; 5; 6; 7; 4].
Proof. vm_compute. done. Qed.

Section LoopSteps.
Context {S A : Type}.

(** A loop whose body always returns, acting as [step] on the states that
    satisfy [P], is the left fold of [step]. *)
Lemma for_each_steps (P : S -> Prop) (step : A -> S -> S) (body : A -> M S unit)
  (xs : list A) (s : S) :
  P s ->
  (forall x s0, P s0 -> body x s0 = (Ok tt, step x s0) /\ P (step x s0)) ->
  for_each body xs s = (Ok tt, foldl (fun s' x => step x s') s xs) /\
  P (foldl (fun s' x => step x s') s xs).
Proof.
  intros Hs Hbody. revert s Hs.
  induction xs as [|x xs IH]; intros s Hs; [done|].
  simpl. unfold bind. destruct (Hbody x s Hs) as [-> Hstep]. by apply IH.
Qed.

Lemma foldl_unchanged (xs : list A) (s : S) : foldl (fun s' _ => s') s xs = s.
Proof. induction xs as [|x xs IH]; [done|]. by simpl. Qed.

End LoopSteps.

Section WithoutConstraints.
Variable turf : turf_api.
Implicit Types (h : Main.heap) (s : Main.state).

(** Against an empty polygon the intersection is [undefined]: only the
    first operand is closed. *)
Lemma polygonIntersection_with_empty (cell other : Main.loc) h :
  Main.arr h other = [] ->
  Main.polygonIntersection turf cell other h = (Ok Main.VUndefined, Main.closePolygon cell h).
Proof.
  intros Hempty. rewrite polygonIntersection_eq, closePolygons_pair. cbv zeta.
  pose proof (closePolygon_keeps_empty h cell other Hempty) as Hkept.
  rewrite (closePolygon_empty _ other Hkept).
  unfold Main.too_short. rewrite Hkept. simpl. by rewrite orb_true_r.
Qed.

Lemma clip_outer_loop_with_empty (cells : list Main.loc) (pre : list (option Main.loc)) h s :
  Main.voronoiPolygons s = pre ++ map Some cells ->
  Main.arr h (Main.constraints_outer s) = [] ->
  for_each (fun i => bind (gets Main.constraints_outer)
                          (fun outer => Main.clip_cell (Main.polygonIntersection turf) i outer))
           (seq (length pre) (length cells)) (Main.with_store (fun _ => h) s)
  = (Ok tt, Main.with_store (fun _ => Main.closePolygons cells h) s).
Proof.
  revert pre h. induction cells as [|cell cells IH]; intros pre h Hvp Hempty; [done|].
  simpl. unfold bind at 1, bind at 1, gets at 1, Main.clip_cell, bind at 1, gets at 1.
  simpl. rewrite Hvp, lookup_app_r by lia. rewrite Nat.sub_diag. simpl.
  unfold bind at 1, Main.on_store. simpl.
  rewrite (polygonIntersection_with_empty cell _ h Hempty). simpl.
  specialize (IH (pre ++ [Some cell]) (Main.closePolygon cell h)).
  rewrite <- (assoc_L (++)), length_app in IH. simpl in IH.
  replace (length pre + 1) with (S (length pre)) in IH by lia.
  apply IH; [done|]. by apply closePolygon_keeps_empty.
Qed.

End WithoutConstraints.

(** X2: while the outer polygon is the empty array that [init] creates,
    there is no inner polygon and every entry of [voronoiPolygons] is an
    array (d3 left no hole), [applyConstraints] does not throw: it closes
    every cell in place, changes no other array, and keeps every cell that
    has a point. *)
Theorem applyConstraints_before_constraints_load
  (turf : turf_api) (s : Main.state) (cells : list Main.loc) :
  Main.arr (Main.store s) (Main.constraints_outer s) = [] ->
  Main.constraints_inner s = [] ->
  Main.voronoiPolygons s = map Some cells ->
  let h' := Main.closePolygons cells (Main.store s) in
  Main.applyConstraints turf s =
    (Ok tt, Main.with_voronoiPolygons (List.filter (Main.keeps h'))
              (Main.with_store (fun _ => h') s)) /\
  forall l, Main.arr h' l =
            if decide (l ∈ cells)
            then Main.closed_ring (Main.arr (Main.store s) l)
            else Main.arr (Main.store s) l.
Proof.
  intros Houter Hinner Hcells h'. split; [|intros l; apply closePolygons_arr].
  assert (Heta : Main.with_store (fun _ => Main.store s) s = s) by (by destruct s).
  assert (Hclip : Main.clip_outer turf s = (Ok tt, Main.with_store (fun _ => h') s)).
  { unfold Main.clip_outer, bind at 1, gets at 1, for_range.
    rewrite <- Heta at 2. rewrite Hcells, length_map.
    apply (clip_outer_loop_with_empty turf cells [] (Main.store s) s); done. }
  assert (Hcut : Main.clip_inner turf (Main.with_store (fun _ => h') s)
                 = (Ok tt, Main.with_store (fun _ => h') s)).
  { unfold Main.clip_inner, bind at 1, gets at 1, for_range.
    destruct (for_each_steps
                (fun s1 : Main.state => Main.constraints_inner s1 = [])
                (fun (_ : nat) (s1 : Main.state) => s1)
                (fun i => bind (gets Main.constraints_inner)
                   (fun inner => for_each
                      (fun obstacle => Main.clip_cell (Main.removeIntersection turf) i obstacle)
                      inner))
                (seq 0 (length (Main.voronoiPolygons (Main.with_store (fun _ => h') s))))
                (Main.with_store (fun _ => h') s)) as [Hrun _].
    - exact Hinner.
    - intros i s1 Hs1. split; [|done]. unfold bind, gets. by rewrite Hs1.
    - rewrite Hrun. by rewrite foldl_unchanged. }
  unfold Main.applyConstraints, bind. rewrite Hclip, Hcut. reflexivity.
Qed.

(** The theorem above on the state that [init] leaves, once d3 has given
    one cell: the open triangle of the examples. *)
Lemma applyConstraints_before_constraints_load_witness :
  let s := Main.State (Main.Heap [Examples.pos 0 0; Examples.pos 1 0; Examples.pos 1 1]
                         [[]; [0; 1; 2]])
             [] None 0 [] [Some 1] None [] in
  Main.applyConstraints (Examples.turf_answering None None) s =
    (Ok tt, Main.with_voronoiPolygons
              (List.filter (Main.keeps (Main.closePolygons [1] (Main.store s))))
              (Main.with_store (fun _ => Main.closePolygons [1] (Main.store s)) s)).
Proof.
  intros s.
  exact (proj1 (applyConstraints_before_constraints_load
                  (Examples.turf_answering None None) s [1] eq_refl eq_refl eq_refl)).
Defined.

Section Holes.
Variable turf : turf_api.
Implicit Types (s : Main.state).

(** A hole stays a hole: the loops write only where they have read an
    array. *)
Lemma clip_cell_keeps_hole (clip : Main.loc -> Main.loc -> M Main.heap Main.value)
  (i j : nat) (other : Main.loc) s :
  Main.voronoiPolygons s !! i = Some None ->
  Main.voronoiPolygons (snd (Main.clip_cell clip j other s)) !! i = Some None.
Proof.
  intros Hhole. unfold Main.clip_cell, bind, gets, throw, Main.on_store.
  destruct (Main.voronoiPolygons s !! j) as [[cell|]|] eqn:Hj; [|done|done].
  destruct (clip cell other (Main.store s)) as [[[|l]|e] h]; simpl; try done.
  rewrite list_lookup_insert_ne; [done|]. intros ->. congruence.
Qed.

(** The first loop of [applyConstraints] does not get past a hole. *)
Lemma clip_outer_stops_at_hole s (i : nat) :
  Main.voronoiPolygons s !! i = Some None ->
  exists e, fst (Main.clip_outer turf s) = Throw e.
Proof.
  intros Hhole.
  assert (Hi : i < length (Main.voronoiPolygons s)) by (eapply lookup_lt_Some; eauto).
  unfold Main.clip_outer, bind at 1, gets at 1, for_range.
  replace (length (Main.voronoiPolygons s))
    with (i + S (length (Main.voronoiPolygons s) - S i)) by lia.
  rewrite seq_app, for_each_app.
  pose proof (for_each_invariant
                (fun s' => Main.voronoiPolygons s' !! i = Some None)
                (fun i0 => bind (gets Main.constraints_outer)
                   (fun outer => Main.clip_cell (Main.polygonIntersection turf) i0 outer))
                (seq 0 i) s Hhole) as Hkept.
  destruct (for_each _ (seq 0 i) s) as [[[]|e] s1]; [|by exists e].
  simpl in Hkept. simpl. unfold bind at 1, bind at 1, gets at 1, Main.clip_cell.
  unfold bind at 1, gets at 1. rewrite Hkept.
  - by exists TypeError.
  - intros j s0 Hs0. unfold bind, gets. by apply clip_cell_keeps_hole.
Qed.

Lemma applyConstraints_stops_at_hole s (i : nat) :
  Main.voronoiPolygons s !! i = Some None ->
  exists e, fst (Main.applyConstraints turf s) = Throw e.
Proof.
  intros Hhole. destruct (clip_outer_stops_at_hole s i Hhole) as [e He].
  exists e. unfold Main.applyConstraints, bind.
  destruct (Main.clip_outer turf s) as [[[]|e'] s1]; simpl in He; [discriminate|done].
Qed.

End Holes.

Section Allocation.
Implicit Types (h : Main.heap) (l : Main.loc).

Lemma coords_extends h h' (refs : list Main.ref) :
  Main.heap_extends h h' ->
  Forall (fun p => p < length (Main.points h)) refs ->
  Main.coords h' refs = Main.coords h refs.
Proof.
  intros [Hprefix _] Hrefs. unfold Main.coords. apply map_ext_Forall.
  eapply Forall_impl; [exact Hrefs|]. intros p Hp. simpl in Hp.
  unfold Main.coord. destruct Hprefix as [more ->]. by rewrite lookup_app_l.
Qed.

(** [alloc_rings] returns as many consecutive new arrays as it is given
    rings, each holding the coordinates of its ring; the arrays and the
    points that were there stay. *)
Lemma alloc_rings_spec (rs : list (list position)) h :
  exists h',
    Main.alloc_rings rs h = (Ok (seq (length (Main.arrays h)) (length rs)), h') /\
    Main.heap_extends h h' /\
    length (Main.arrays h') = length (Main.arrays h) + length rs /\
    (forall l, l < length (Main.arrays h) -> Main.arr h' l = Main.arr h l) /\
    (forall i r, rs !! i = Some r ->
       Main.coords h' (Main.arr h' (length (Main.arrays h) + i)) = r).
Proof.
  revert h. induction rs as [|r rs IH]; intros h.
  - exists h. repeat split; try done; simpl; lia.
  - assert (Hlen1 : length (Main.arrays (snd (Main.alloc_ring r h)))
                    = S (length (Main.arrays h))).
    { simpl. rewrite length_app. simpl. lia. }
    assert (Hpts1 : length (Main.points (snd (Main.alloc_ring r h)))
                    = length (Main.points h) + length r).
    { simpl. by rewrite length_app. }
    destruct (IH (snd (Main.alloc_ring r h))) as (h' & Hrun & Hext & Hlen & Hold & Hnew).
    rewrite Hlen1 in Hrun, Hlen, Hold, Hnew.
    exists h'. split; [|split; [|split; [|split]]].
    + change (Main.alloc_rings (r :: rs) h)
        with (bind (Main.alloc_ring r) (fun l => bind (Main.alloc_rings rs)
                (fun ls => ret (l :: ls))) h).
      unfold bind at 1.
      change (Main.alloc_ring r h)
        with (Ok (length (Main.arrays h)), snd (Main.alloc_ring r h)).
      cbv beta iota. unfold bind. by rewrite Hrun.
    + eapply heap_extends_trans; [apply heap_extends_alloc_ring|exact Hext].
    + simpl length. lia.
    + intros l Hl. rewrite Hold by lia. by apply alloc_ring_arr_old.
    + intros [|i] r' Hr'.
      * injection Hr' as <-. rewrite Nat.add_0_r.
        rewrite Hold by lia. rewrite alloc_ring_arr_new.
        rewrite (coords_extends (snd (Main.alloc_ring r h)) h'); [|done|].
        -- pose proof (alloc_ring_coords r h) as Hc.
           by rewrite alloc_ring_arr_new in Hc.
        -- apply Forall_forall. intros p Hp%list_elem_of_In%in_seq. lia.
      * replace (length (Main.arrays h) + S i) with (S (length (Main.arrays h)) + i) by lia.
        by apply Hnew.
Qed.

Lemma cell_locs_length {A : Type} (first : Main.loc) (polygons : list (option A)) :
  length (Main.cell_locs first polygons) = length polygons.
Proof.
  revert first. induction polygons as [|[polygon|] polygons IH]; intros first; [done| |];
    simpl; by rewrite IH.
Qed.

Lemma cell_locs_hole {A : Type} (first : Main.loc) (polygons : list (option A)) (i : nat) :
  polygons !! i = Some None -> Main.cell_locs first polygons !! i = Some None.
Proof.
  revert first i. induction polygons as [|[polygon|] polygons IH]; intros first [|i] Hi;
    try done; simpl in *; by apply IH.
Qed.

Lemma cell_locs_without_hole {A : Type} (first : Main.loc) (polygons : list A) :
  Main.cell_locs first (map Some polygons) = map Some (seq first (length polygons)).
Proof.
  revert first. induction polygons as [|polygon polygons IH]; intros first; [done|].
  simpl. by rewrite IH.
Qed.

Lemma cell_locs_fmap {A B : Type} (f : A -> B) (first : Main.loc) (polygons : list (option A)) :
  Main.cell_locs first (map (option_map f) polygons) = Main.cell_locs first polygons.
Proof.
  revert first. induction polygons as [|[polygon|] polygons IH]; intros first; [done| |];
    simpl; by rewrite IH.
Qed.

(** [alloc_cells] gives every polygon a new array holding its
    coordinates and every hole a hole; the arrays and the points that were
    there stay. *)
Lemma alloc_cells_spec (polygons : list (option (list position))) h :
  exists h',
    Main.alloc_cells polygons h =
      (Ok (Main.cell_locs (length (Main.arrays h)) polygons), h') /\
    Main.heap_extends h h' /\
    (forall l, l < length (Main.arrays h) -> Main.arr h' l = Main.arr h l) /\
    (forall i r, polygons !! i = Some (Some r) ->
       exists l, Main.cell_locs (length (Main.arrays h)) polygons !! i = Some (Some l) /\
                 length (Main.arrays h) <= l /\
                 Main.coords h' (Main.arr h' l) = r).
Proof.
  revert h. induction polygons as [|[r|] polygons IH]; intros h.
  - exists h. split; [done|]. split; [apply heap_extends_refl|]. by split.
  - assert (Hlen1 : length (Main.arrays (snd (Main.alloc_ring r h)))
                    = S (length (Main.arrays h))).
    { simpl. rewrite length_app. simpl. lia. }
    assert (Hpts1 : length (Main.points (snd (Main.alloc_ring r h)))
                    = length (Main.points h) + length r).
    { simpl. by rewrite length_app. }
    destruct (IH (snd (Main.alloc_ring r h))) as (h' & Hrun & Hext & Hold & Hnew).
    rewrite Hlen1 in Hrun, Hold, Hnew.
    exists h'. split; [|split; [|split]].
    + change (Main.alloc_cells (Some r :: polygons) h)
        with (bind (Main.alloc_ring r) (fun l => bind (Main.alloc_cells polygons)
                (fun ls => ret (Some l :: ls))) h).
      unfold bind at 1.
      change (Main.alloc_ring r h)
        with (Ok (length (Main.arrays h)), snd (Main.alloc_ring r h)).
      cbv beta iota. unfold bind. by rewrite Hrun.
    + eapply heap_extends_trans; [apply heap_extends_alloc_ring|exact Hext].
    + intros l Hl. rewrite Hold by lia. by apply alloc_ring_arr_old.
    + intros [|i] r' Hr'.
      * injection Hr' as <-. exists (length (Main.arrays h)).
        split; [done|]. split; [done|].
        rewrite Hold by lia. rewrite alloc_ring_arr_new.
        rewrite (coords_extends (snd (Main.alloc_ring r h)) h'); [|done|].
        -- pose proof (alloc_ring_coords r h) as Hc.
           by rewrite alloc_ring_arr_new in Hc.
        -- apply Forall_forall. intros p Hp%list_elem_of_In%in_seq. lia.
      * destruct (Hnew i r' Hr') as (l & Hl & Hge & Hcoords).
        exists l. split; [exact Hl|]. split; [lia|exact Hcoords].
  - destruct (IH h) as (h' & Hrun & Hext & Hold & Hnew).
    exists h'. split; [|split; [|split]]; try done.
    + change (Main.alloc_cells (None :: polygons) h)
        with (bind (Main.alloc_cells polygons) (fun ls => ret (None :: ls)) h).
      unfold bind. by rewrite Hrun.
    + intros [|i] r' Hr'; [done|]. by apply Hnew.
Qed.

End Allocation.

Section VoronoiFacts.
Variable d3_polygons : list position -> list (option (list (option position))).
Implicit Types (s : Main.state).

Lemma voronoi_spec s :
  let polygons := d3_polygons (map (fun p => (Main.lat p, Main.lng p)) (Main.stations s)) in
  let n := length (Main.arrays (Main.store s)) in
  exists h',
    Main.voronoi d3_polygons s =
      (Ok tt, Main.with_voronoiPolygons (fun _ => Main.cell_locs n polygons)
                (Main.with_store (fun _ => h') s)) /\
    Main.heap_extends (Main.store s) h' /\
    (forall l, l < n -> Main.arr h' l = Main.arr (Main.store s) l) /\
    (forall i polygon, polygons !! i = Some (Some polygon) ->
       exists l, Main.cell_locs n polygons !! i = Some (Some l) /\ n <= l /\
                 Main.coords h' (Main.arr h' l) = Main.non_null polygon).
Proof.
  intros polygons n.
  destruct (alloc_cells_spec (map (option_map Main.non_null) polygons) (Main.store s))
    as (h' & Hrun & Hext & Hold & Hnew).
  fold n in Hrun, Hold, Hnew. rewrite cell_locs_fmap in Hrun.
  exists h'. split; [|split; [done|split; [done|]]].
  - unfold Main.voronoi, bind, gets, modify, Main.on_store. fold polygons. by rewrite Hrun.
  - intros i polygon Hi.
    destruct (Hnew i (Main.non_null polygon)) as (l & Hl & Hge & Hcoords).
    { by rewrite list_lookup_fmap, Hi. }
    rewrite cell_locs_fmap in Hl. by exists l.
Qed.

End VoronoiFacts.

(** X4: [voronoi] always returns.  The cells are then one entry per entry
    of d3's answer, in d3's order: a new array for every polygon, holding
    the polygon's points that are not [null], in order, and a hole for
    every hole; when d3's answer has no hole the cells are consecutive
    new arrays.  The arrays that were in the heap, the stations, the
    constraints and the map layers are as they were. *)
Theorem voronoi_allocates_one_cell_per_polygon
  (d3_polygons : list position -> list (option (list (option position))))
  (s : Main.state) :
  let polygons :=
    d3_polygons (map (fun p => (Main.lat p, Main.lng p)) (Main.stations s)) in
  let n := length (Main.arrays (Main.store s)) in
  let s' := snd (Main.voronoi d3_polygons s) in
  fst (Main.voronoi d3_polygons s) = Ok tt /\
  length (Main.voronoiPolygons s') = length polygons /\
  (forall i polygon, polygons !! i = Some (Some polygon) ->
     exists l, Main.voronoiPolygons s' !! i = Some (Some l) /\ n <= l /\
               Main.coords (Main.store s') (Main.arr (Main.store s') l)
                 = Main.non_null polygon) /\
  (forall i, polygons !! i = Some None -> Main.voronoiPolygons s' !! i = Some None) /\
  (forall arrays, polygons = map Some arrays ->
     Main.voronoiPolygons s' = map Some (seq n (length polygons)) /\
     forall i polygon, arrays !! i = Some polygon ->
       Main.coords (Main.store s') (Main.arr (Main.store s') (n + i))
         = Main.non_null polygon) /\
  Main.only_cells_changed s s' /\
  (forall l, l < n -> Main.arr (Main.store s') l = Main.arr (Main.store s) l).
Proof.
  intros polygons n s'. subst s'.
  destruct (voronoi_spec d3_polygons s) as (h' & Hrun & _ & Hold & Hnew).
  cbv zeta in Hrun, Hold, Hnew. fold polygons in Hrun, Hnew. fold n in Hrun, Hold, Hnew.
  rewrite Hrun. simpl.
  split; [done|]. split; [apply cell_locs_length|]. split; [exact Hnew|].
  split; [intros i; apply cell_locs_hole|]. split; [|by split].
  intros arrays Harrays.
  assert (Hcells : Main.cell_locs n polygons = map Some (seq n (length polygons))).
  { rewrite Harrays, length_map. apply cell_locs_without_hole. }
  split; [exact Hcells|]. intros i polygon Hi.
  destruct (Hnew i polygon) as (l & Hl & _ & Hcoords).
  { by rewrite Harrays, list_lookup_fmap, Hi. }
  rewrite Hcells, list_lookup_fmap in Hl.
  assert (Hi' : i < length polygons).
  { rewrite Harrays, length_map. eapply lookup_lt_Some; eauto. }
  rewrite lookup_seq_lt in Hl by done. simpl in Hl. by injection Hl as <-.
Qed.

Section RedrawFacts.
Variable turf : turf_api.
Variable d3_polygons : list position -> list (option (list (option position))).
Implicit Types (s : Main.state).

Lemma voronoi_frame s :
  fst (Main.voronoi d3_polygons s) = Ok tt /\
  Main.only_cells_changed s (snd (Main.voronoi d3_polygons s)) /\
  Main.heap_kept (Main.store s) (Main.store (snd (Main.voronoi d3_polygons s))).
Proof.
  destruct (voronoi_spec d3_polygons s) as (h' & Hrun & Hext & Hold & _).
  cbv zeta in Hrun, Hold. rewrite Hrun. simpl.
  split; [done|]. split; [by repeat split|]. by apply heap_kept_new_arrays.
Qed.

(** Drawing a list of polygons adds one layer for each, in order, with
    the coordinates the polygon has at that time. *)
Lemma addPolygon_each (c : color) (fill : bool) (polygons : list Main.loc) s :
  for_each (fun polygon => Main.addPolygon polygon c fill) polygons s =
  (Ok tt,
   Main.with_layers
     (fun ls => ls ++ map (fun polygon =>
                  Layer (Main.coords (Main.store s) (Main.arr (Main.store s) polygon)) c fill)
                  polygons) s).
Proof.
  revert s. induction polygons as [|polygon polygons IH]; intros s.
  - simpl. unfold ret, Main.with_layers. rewrite app_nil_r. by destruct s.
  - simpl. unfold bind, Main.addPolygon, modify. rewrite IH.
    unfold Main.with_layers. simpl. by rewrite <- (assoc_L (++)).
Qed.

(** The drawing half of [redraw], which cannot throw. *)
Lemma redraw_layers s :
  (bind (modify (Main.with_layers (fun _ => [])))
     (fun _ => bind (gets Main.voronoiPolygons)
     (fun cells => bind (for_each (fun polygon => Main.addPolygon polygon Blue false)
                                  (Main.present cells))
     (fun _ => bind (gets Main.constraints_outer)
     (fun outer => bind (Main.addPolygon outer Red false)
     (fun _ => bind (gets Main.constraints_inner)
     (fun inner => for_each (fun polygon => Main.addPolygon polygon Red true) inner)))))) s)
  = (Ok tt,
     Main.with_layers
       (fun _ =>
          map (fun cell => Layer (Main.coords (Main.store s) (Main.arr (Main.store s) cell))
                                 Blue false) (Main.present (Main.voronoiPolygons s)) ++
          Layer (Main.coords (Main.store s) (Main.arr (Main.store s) (Main.constraints_outer s)))
                Red false ::
          map (fun polygon =>
                 Layer (Main.coords (Main.store s) (Main.arr (Main.store s) polygon)) Red true)
              (Main.constraints_inner s)) s).
Proof.
  unfold bind at 1, modify at 1. unfold bind at 1, gets at 1. simpl.
  unfold bind at 1. rewrite addPolygon_each.
  unfold bind at 1, gets at 1. simpl.
  unfold bind at 1, Main.addPolygon at 1, modify at 1.
  unfold bind at 1, gets at 1. simpl.
  rewrite addPolygon_each. unfold Main.with_layers. simpl.
  by rewrite <- (assoc_L (++)).
Qed.

Lemma redraw_outcome s :
  let s' := snd (Main.redraw turf d3_polygons s) in
  Main.stations s' = Main.stations s /\
  Main.stations_minus1 s' = Main.stations_minus1 s /\
  Main.constraints_outer s' = Main.constraints_outer s /\
  Main.constraints_inner s' = Main.constraints_inner s /\
  Main.dragStart s' = Main.dragStart s /\
  Main.heap_kept (Main.store s) (Main.store s') /\
  match fst (Main.redraw turf d3_polygons s) with
  | Ok _ =>
      Main.layers s' =
        map (fun cell => Layer (Main.coords (Main.store s') (Main.arr (Main.store s') cell))
                               Blue false) (Main.present (Main.voronoiPolygons s')) ++
        Layer (Main.coords (Main.store s')
                 (Main.arr (Main.store s') (Main.constraints_outer s'))) Red false ::
        map (fun polygon =>
               Layer (Main.coords (Main.store s') (Main.arr (Main.store s') polygon)) Red true)
            (Main.constraints_inner s')
  | Throw _ => Main.layers s' = Main.layers s
  end.
Proof.
  cbv zeta. remember (Main.redraw turf d3_polygons s) as out eqn:Hout.
  unfold Main.redraw in Hout. unfold bind at 1 in Hout.
  destruct (voronoi_frame s) as (Hok & Hsame1 & Hkept1).
  destruct (Main.voronoi d3_polygons s) as [r1 s1]. simpl in Hok, Hsame1, Hkept1. subst r1.
  unfold bind at 1 in Hout.
  destruct (applyConstraints_frame turf s1) as (Hsame2 & _ & Hkept2).
  pose proof (heap_kept_trans _ _ _ Hkept1 Hkept2) as Hkept.
  destruct (Main.applyConstraints turf s1) as [[[]|e] s2]; simpl in Hsame2, Hkept.
  - pose proof (only_cells_changed_trans _ _ _ Hsame1 Hsame2) as (H1 & H2 & H3 & H4 & H5 & _).
    rewrite (redraw_layers s2) in Hout. subst out. simpl.
    do 5 (split; [done|]). by split.
  - pose proof (only_cells_changed_trans _ _ _ Hsame1 Hsame2) as (H1 & H2 & H3 & H4 & H5 & H6).
    subst out. simpl. do 5 (split; [done|]). by split.
Qed.

(** Where d3 leaves a hole the recalculation throws. *)
Lemma redraw_stops_at_hole s (i : nat) :
  d3_polygons (map (fun p => (Main.lat p, Main.lng p)) (Main.stations s)) !! i = Some None ->
  exists e, fst (Main.redraw turf d3_polygons s) = Throw e.
Proof.
  intros Hhole.
  destruct (voronoi_spec d3_polygons s) as (h' & Hrun & _).
  cbv zeta in Hrun. unfold Main.redraw, bind at 1. rewrite Hrun. unfold bind at 1.
  destruct (applyConstraints_stops_at_hole turf
              (Main.with_voronoiPolygons
                 (fun _ => Main.cell_locs (length (Main.arrays (Main.store s)))
                             (d3_polygons (map (fun p => (Main.lat p, Main.lng p))
                                               (Main.stations s))))
                 (Main.with_store (fun _ => h') s)) i) as [e He].
  { simpl. by apply cell_locs_hole. }
  exists e. by destruct (Main.applyConstraints turf _) as [[[]|e'] s2]; simpl in He;
    [discriminate|].
Qed.

End RedrawFacts.


(** X5: a click on the map adds the clicked position at the end of the
    stations and leaves the stations that were there in place, also when
    the recalculation that follows throws. *)
Theorem onMapClick_appends_station
  (turf : turf_api) (d3_polygons : list position -> list (option (list (option position))))
  (latlng : Main.station) (s : Main.state) :
  Main.stations (snd (Main.onMapClick turf d3_polygons latlng s))
    = Main.stations s ++ [latlng].
Proof.
  unfold Main.onMapClick, bind, modify.
  destruct (redraw_outcome turf d3_polygons
              (Main.with_stations (fun st => st ++ [latlng]) s)) as (Hst & _).
  cbv zeta in Hst.
  by destruct (Main.redraw turf d3_polygons _) as [r s'].
Qed.

(** X17: where d3 leaves a hole among the polygons, as it does for a
    station at the place of an earlier one, [redraw] throws: the first
    loop of [applyConstraints] reads the hole as [undefined] and
    [closePolygons] fails on it.  The stations are kept, and the map keeps
    the layers it had, which are those of the stations before. *)
Theorem redraw_throws_on_a_hole
  (turf : turf_api) (d3_polygons : list position -> list (option (list (option position))))
  (s : Main.state) (i : nat) :
  d3_polygons (map (fun p => (Main.lat p, Main.lng p)) (Main.stations s)) !! i = Some None ->
  let s' := snd (Main.redraw turf d3_polygons s) in
  (exists e, fst (Main.redraw turf d3_polygons s) = Throw e) /\
  Main.stations s' = Main.stations s /\
  Main.layers s' = Main.layers s.
Proof.
  intros Hhole s'. subst s'.
  destruct (redraw_stops_at_hole turf d3_polygons s i Hhole) as [e He].
  destruct (redraw_outcome turf d3_polygons s) as (Hst & _ & _ & _ & _ & _ & Hlayers).
  cbv zeta in Hst, Hlayers. rewrite He in Hlayers.
  split; [by exists e|]. by split.
Qed.

(** The theorem above after two clicks on one spot: d3 gives the second
    station a hole. *)
Lemma redraw_throws_on_a_hole_witness :
  let turf := Examples.turf_answering None None in
  let d3 := Examples.d3_one_cell_one_hole in
  let s := Examples.main_state Examples.outer_only [] 0 []
             [Examples.latlng 1 1; Examples.latlng 1 1] None in
  let s' := snd (Main.redraw turf d3 s) in
  (exists e, fst (Main.redraw turf d3 s) = Throw e) /\
  Main.stations s' = Main.stations s /\
  Main.layers s' = Main.layers s.
Proof.
  intros turf d3 s.
  exact (redraw_throws_on_a_hole turf d3 s 1 eq_refl).
Defined.

Section LookupOrder.
Context {A : Type}.
Implicit Types (p : A -> bool) (xs : list A).

(** An element that satisfies [p] is found, at its index or before. *)
Lemma findIndex_le p xs i x :
  xs !! i = Some x -> p x = true -> exists j, j <= i /\ findIndex p xs = Some j.
Proof.
  revert i. induction xs as [|y xs IH]; intros i Hi Hp; [done|].
  simpl. destruct (p y) eqn:Hy; [exists 0; split; [lia|done]|].
  destruct i as [|i]; simpl in Hi.
  - injection Hi as ->. congruence.
  - destruct (IH i Hi Hp) as (j & Hj & ->). exists (S j). split; [lia|done].
Qed.

End LookupOrder.

Lemma same_place_refl (p : Main.station) : Main.same_place p p = true.
Proof.
  unfold Main.same_place. apply andb_true_iff. split; by apply num_eqb_true.
Qed.

(** X6: a drag that finds its station keeps the number of stations, puts
    the new position at the station's index and leaves the other stations
    alone; a later lookup at the new position finds a station at that
    index or at an earlier one. *)
Theorem dragend_update_moves_one_station (d latlng : Main.station) (s : Main.state) (i : nat) :
  Main.dragStart s = Some d ->
  findIndex (Main.same_place d) (Main.stations s) = Some i ->
  let s' := snd (Main.dragend_update latlng s) in
  length (Main.stations s') = length (Main.stations s) /\
  Main.stations s' !! i = Some latlng /\
  (forall j, j <> i -> Main.stations s' !! j = Main.stations s !! j) /\
  exists j, j <= i /\ findIndex (Main.same_place latlng) (Main.stations s') = Some j.
Proof.
  intros Hstart Hi s'. subst s'.
  unfold Main.dragend_update, bind, gets, modify. rewrite Hstart, Hi. simpl.
  destruct (findIndex_Some _ _ _ Hi) as (p & Hp & _).
  assert (Hlt : i < length (Main.stations s)) by (eapply lookup_lt_Some; eauto).
  assert (Hmoved : <[i := latlng]> (Main.stations s) !! i = Some latlng)
    by (by apply list_lookup_insert_eq).
  repeat split.
  - apply length_insert.
  - exact Hmoved.
  - intros j Hj. by apply list_lookup_insert_ne.
  - eapply findIndex_le; [exact Hmoved|apply same_place_refl].
Qed.

(** The theorem above where two stations share the place the drag starts
    from. *)
Lemma dragend_update_moves_one_station_witness :
  let s' := snd (Main.dragend_update (Examples.latlng 2 1) Examples.drag_from_shared_place) in
  length (Main.stations s') = 2 /\
  Main.stations s' !! 0 = Some (Examples.latlng 2 1) /\
  (forall j, j <> 0 ->
     Main.stations s' !! j = Main.stations Examples.drag_from_shared_place !! j) /\
  exists j, j <= 0 /\
    findIndex (Main.same_place (Examples.latlng 2 1)) (Main.stations s') = Some j.
Proof.
  exact (dragend_update_moves_one_station
           (Examples.latlng 1 1) (Examples.latlng 2 1)
           Examples.drag_from_shared_place 0 eq_refl eq_refl).
Defined.

Section LoadingConstraints.
Implicit Types (h : Main.heap) (s : Main.state).

Lemma last_seq (n k : nat) : last (seq n (S k)) = Some (n + k).
Proof. by rewrite seq_S, last_snoc. Qed.

(** A ring of new points, at least two of them, is never closed for
    [closePolygon]: its first point is appended. *)
Lemma closePolygon_new_ring h l (n k : nat) :
  Main.arr h l = seq n (S (S k)) ->
  Main.arr (Main.closePolygon l h) l = seq n (S (S k)) ++ [n].
Proof.
  intros Harr. rewrite closePolygon_arr, Harr. unfold Main.closed_ring.
  rewrite last_seq. simpl. rewrite decide_False; [done|]. intros [= E]. lia.
Qed.

End LoadingConstraints.

(** X7: [loadConstraints] stores every ring of the file in a new array of
    new points, with the coordinates of the file and without touching the
    arrays that were there.  As the points are new objects, the first
    [closePolygons] on the outer ring appends its first point whenever the
    ring has two points or more, also when the file's ring was closed. *)
Theorem setConstraints_stores_new_rings
  (outer : list position) (inner : list (list position)) (s : Main.state) :
  let n := length (Main.arrays (Main.store s)) in
  let s' := snd (Main.setConstraints outer inner s) in
  let h' := Main.store s' in
  fst (Main.setConstraints outer inner s) = Ok tt /\
  Main.constraints_outer s' = n /\
  Main.constraints_inner s' = seq (S n) (length inner) /\
  Main.coords h' (Main.arr h' n) = outer /\
  (forall i ring, inner !! i = Some ring ->
     Main.coords h' (Main.arr h' (S n + i)) = ring) /\
  (forall l, l < n -> Main.arr h' l = Main.arr (Main.store s) l) /\
  (forall first second rest, outer = first :: second :: rest ->
     Main.coords (Main.closePolygons [n] h') (Main.arr (Main.closePolygons [n] h') n)
       = outer ++ [first]).
Proof.
  intros n s' h'. subst h' s'.
  assert (Hlen1 : length (Main.arrays (snd (Main.alloc_ring outer (Main.store s)))) = S n).
  { simpl. rewrite length_app. simpl. lia. }
  destruct (alloc_rings_spec inner (snd (Main.alloc_ring outer (Main.store s))))
    as (h2 & Hrun & Hext & _ & Hold & Hnew).
  rewrite Hlen1 in Hrun, Hold, Hnew.
  assert (Hset : Main.setConstraints outer inner s =
                 (Ok tt, Main.State h2 (Main.stations s) (Main.stations_minus1 s)
                           n (seq (S n) (length inner)) (Main.voronoiPolygons s)
                           (Main.dragStart s) (Main.layers s))).
  { unfold Main.setConstraints, bind, modify, Main.on_store.
    change (Main.alloc_ring outer (Main.store s))
      with (Ok n, snd (Main.alloc_ring outer (Main.store s))).
    cbv beta iota.
    change (Main.store (Main.with_store
              (fun _ => snd (Main.alloc_ring outer (Main.store s))) s))
      with (snd (Main.alloc_ring outer (Main.store s))).
    by rewrite Hrun. }
  rewrite Hset. simpl.
  assert (Harr : Main.arr h2 n = seq (length (Main.points (Main.store s))) (length outer)).
  { rewrite Hold by lia. apply alloc_ring_arr_new. }
  assert (Hvalid : Forall (fun p => p < length (Main.points
                      (snd (Main.alloc_ring outer (Main.store s)))))
                     (seq (length (Main.points (Main.store s))) (length outer))).
  { apply Forall_forall. intros p Hp%list_elem_of_In%in_seq.
    simpl. rewrite length_app. lia. }
  assert (Hcoords : Main.coords h2 (Main.arr h2 n) = outer).
  { rewrite Harr, (coords_extends _ h2 _ Hext Hvalid).
    pose proof (alloc_ring_coords outer (Main.store s)) as Hc.
    by rewrite alloc_ring_arr_new in Hc. }
  repeat split; try done.
  - intros l Hl. rewrite Hold by lia. by apply alloc_ring_arr_old.
  - intros first second rest Houter.
    assert (Hk : length outer = S (S (length rest))) by (by rewrite Houter).
    rewrite Hk in Harr.
    change (Main.closePolygons [n] h2) with (Main.closePolygon n h2).
    rewrite (closePolygon_new_ring h2 n _ _ Harr).
    unfold Main.coords. rewrite map_app.
    change (map (Main.coord (Main.closePolygon n h2))) with (Main.coords (Main.closePolygon n h2)).
    assert (Hsame : forall refs, Main.coords (Main.closePolygon n h2) refs = Main.coords h2 refs).
    { intros refs. unfold Main.coords, Main.coord. by rewrite closePolygon_points. }
    rewrite !Hsame, <- Harr, Hcoords. f_equal.
    rewrite Harr in Hcoords. rewrite Houter in Hcoords. simpl in Hcoords.
    injection Hcoords as Hfirst _. simpl. by rewrite Hfirst.
Qed.

(** * Further facts about the second program file *)

Section UpdateShape.
Variable gutils : App.geometry_api.
Implicit Types (s : App.state).

(** [update] in one piece, for a state with at least one station. *)
Lemma update_eq s :
  App.update gutils s =
  if length (App.stations s) =? 0 then s
  else
    let st :=
      if App.boolConstraints s && negb (length (App.constraints_outer s) =? 0)
      then List.filter (App.allowed gutils (App.constraints_outer s) (App.constraints_inner s))
                       (App.stations s)
      else App.stations s in
    let extent :=
      if App.boolConstraints s then App.OfPolygon (App.constraints_outer s)
      else App.OfStations st in
    let cells := fst (App.voronoi gutils st extent) in
    let bounds := snd (App.voronoi gutils st extent) in
    let clipped :=
      if App.boolConstraints s
      then map (App.clipped_cell gutils (App.constraints_outer s) (App.constraints_inner s)) cells
      else cells in
    App.State st (App.constraints_outer s) (App.constraints_inner s) clipped
      (App.boolMarkers s) (App.boolConstraints s) (App.dragStart s)
      ((map (fun points => Layer points Blue false) clipped ++
        (if App.boolConstraints s
         then Layer (App.constraints_outer s) Red false ::
              map (fun points => Layer points Red true) (App.constraints_inner s)
         else [])) ++
       [Layer (App.polygonFromBounds gutils bounds) Green false])
      (if App.boolMarkers s then st else []).
Proof.
  unfold App.update.
  destruct (length (App.stations s) =? 0); [done|].
  destruct s as [st outer inner vp bm bc ds ls ms]. simpl.
  destruct bc; simpl.
  - rewrite applyConstraintsToPoints_eq. simpl.
    destruct (length outer =? 0); simpl.
    + destruct (App.voronoi gutils st (App.OfPolygon outer)) as [cells bounds].
      by rewrite applyConstraintsToVoronoi_eq, draw_eq.
    + destruct (App.voronoi gutils _ (App.OfPolygon outer)) as [cells bounds].
      by rewrite applyConstraintsToVoronoi_eq, draw_eq.
  - destruct (App.voronoi gutils st (App.OfStations st)) as [cells bounds].
    by rewrite draw_eq.
Qed.

(** The stations that [update] leaves, with or without stations before. *)
Lemma update_stations s :
  App.stations (App.update gutils s) =
  if App.boolConstraints s && negb (length (App.constraints_outer s) =? 0)
  then List.filter (App.allowed gutils (App.constraints_outer s) (App.constraints_inner s))
                   (App.stations s)
  else App.stations s.
Proof.
  rewrite update_eq. destruct (App.stations s) as [|p st] eqn:E; simpl.
  - rewrite E. by destruct (_ && _).
  - done.
Qed.

Lemma update_frame s :
  App.constraints_outer (App.update gutils s) = App.constraints_outer s /\
  App.constraints_inner (App.update gutils s) = App.constraints_inner s /\
  App.boolMarkers (App.update gutils s) = App.boolMarkers s /\
  App.boolConstraints (App.update gutils s) = App.boolConstraints s /\
  App.dragStart (App.update gutils s) = App.dragStart s.
Proof. rewrite update_eq. by destruct (length (App.stations s) =? 0). Qed.

End UpdateShape.

(** X8: [update] never changes the constraints, the two flags or the
    recorded drag start, and it never adds or reorders a station: with the
    constraints shown and a non-empty outer polygon it keeps, in order,
    the stations that the constraints allow, and otherwise every station. *)
Theorem update_keeps_settings_and_filters_stations (gutils : App.geometry_api) (s : App.state) :
  let s' := App.update gutils s in
  App.constraints_outer s' = App.constraints_outer s /\
  App.constraints_inner s' = App.constraints_inner s /\
  App.boolMarkers s' = App.boolMarkers s /\
  App.boolConstraints s' = App.boolConstraints s /\
  App.dragStart s' = App.dragStart s /\
  App.stations s' =
    if App.boolConstraints s && negb (length (App.constraints_outer s) =? 0)
    then List.filter (App.allowed gutils (App.constraints_outer s) (App.constraints_inner s))
                     (App.stations s)
    else App.stations s.
Proof.
  cbv zeta. destruct (update_frame gutils s) as (H1 & H2 & H3 & H4 & H5).
  repeat split; try done. apply update_stations.
Qed.

(** X9: with no station [update] changes nothing, so what was on the map
    stays on it.  With a station or more, the map shows afterwards one
    blue layer per cell that [gutils.voronoi] returned for the stations
    kept, then the constraints in red when they are shown, then the
    bounding polygon in green, and one marker per station kept when the
    markers are shown and none otherwise. *)
Theorem update_redraws_the_map_unless_no_station (gutils : App.geometry_api) (s : App.state) :
  let s' := App.update gutils s in
  let extent :=
    if App.boolConstraints s then App.OfPolygon (App.constraints_outer s)
    else App.OfStations (App.stations s') in
  (App.stations s = [] -> s' = s) /\
  (App.stations s <> [] ->
   length (App.voronoiPolygons s')
     = length (fst (App.voronoi gutils (App.stations s') extent)) /\
   App.layers s' =
     (map (fun points => Layer points Blue false) (App.voronoiPolygons s') ++
      (if App.boolConstraints s
       then Layer (App.constraints_outer s) Red false ::
            map (fun points => Layer points Red true) (App.constraints_inner s)
       else [])) ++
     [Layer (App.polygonFromBounds gutils
               (snd (App.voronoi gutils (App.stations s') extent))) Green false] /\
   App.markers s' = if App.boolMarkers s then App.stations s' else []).
Proof.
  cbv zeta. rewrite update_eq. split.
  - by intros ->.
  - intros Hst. destruct (App.stations s) as [|p st] eqn:E; [done|].
    simpl (length _ =? 0). cbv iota zeta. simpl.
    destruct (App.boolConstraints s); simpl; [|done].
    by rewrite length_map.
Qed.

Section MarkerFacts.
Variable gutils : App.geometry_api.
Variable epsilon : Q.
Implicit Types (s : App.state) (st : list App.Station).

Lemma splice1_length (index : option nat) st :
  (forall i, index = Some i -> i < length st) ->
  length (App.splice1 index st) = length st - 1.
Proof.
  intros Hindex. destruct index as [i|]; simpl.
  - specialize (Hindex i eq_refl). apply length_delete. by apply lookup_lt_is_Some_2.
  - destruct st as [|p st] using rev_ind; [done|].
    rewrite removelast_last, length_app. simpl. lia.
Qed.

Lemma findIndex_lt {A : Type} (p : A -> bool) (xs : list A) (i : nat) :
  findIndex p xs = Some i -> i < length xs.
Proof.
  intros (x & Hx & _)%findIndex_Some. eapply lookup_lt_Some; eauto.
Qed.

End MarkerFacts.

(** X10: a click on a marker while there is one station or none empties
    the station list and changes nothing else: [update] returns at once,
    so the cells, the layers and the markers that were on the map,
    those of the removed station among them, stay on it. *)
Theorem onMarkerClick_on_last_station_leaves_the_map
  (gutils : App.geometry_api) (epsilon : Q) (latlng : position) (s : App.state) :
  length (App.stations s) <= 1 ->
  App.onMarkerClick gutils epsilon latlng s = App.with_stations (fun _ => []) s.
Proof.
  intros Hlen. unfold App.onMarkerClick. cbv zeta.
  assert (Hgone : App.splice1
            (findIndex (fun p => App.pointsEqual epsilon (App.position_of p) latlng)
                       (App.stations s)) (App.stations s) = []).
  { destruct (App.stations s) as [|p [|q st]]; simpl in *; [done| |lia].
    by destruct (App.pointsEqual epsilon (App.position_of p) latlng). }
  rewrite update_eq. simpl. rewrite Hgone. simpl.
  unfold App.with_stations. by rewrite Hgone.
Qed.

(** The theorem above on one station with its cell and marker shown. *)
Lemma onMarkerClick_on_last_station_witness :
  let p := App.createStation "Central" 1 1 "blue" in
  let s := App.State [p] [] [] [Examples.unit_square] true false None
             [Layer Examples.unit_square Blue false] [p] in
  App.onMarkerClick (Examples.gutils_answering None None) (1 # 1000000000)
    (Examples.pos 1 1) s
  = App.with_stations (fun _ => []) s.
Proof.
  intros p s.
  apply (onMarkerClick_on_last_station_leaves_the_map
           (Examples.gutils_answering None None) (1 # 1000000000) (Examples.pos 1 1) s).
  simpl. lia.
Defined.

(** X11: with the constraints hidden, a click on a marker removes exactly
    one station from a non-empty list and keeps the others in order: the
    first station at the marker's position or, when no station is there,
    the last station of the list. *)
Theorem onMarkerClick_removes_first_match_or_last
  (gutils : App.geometry_api) (epsilon : Q) (latlng : position) (s : App.state) :
  App.boolConstraints s = false ->
  let here := fun p => App.pointsEqual epsilon (App.position_of p) latlng in
  let st' := App.stations (App.onMarkerClick gutils epsilon latlng s) in
  length st' = length (App.stations s) - 1 /\
  (forall i, findIndex here (App.stations s) = Some i -> st' = delete i (App.stations s)) /\
  (matches here (App.stations s) = 0 -> st' = removelast (App.stations s)).
Proof.
  intros Hbc here st'. subst st'. unfold App.onMarkerClick. cbv zeta.
  rewrite update_stations. simpl. rewrite Hbc. simpl. fold here.
  split; [|split].
  - apply splice1_length. intros i Hi. by apply findIndex_lt in Hi.
  - by intros i ->.
  - by intros ->%findIndex_None.
Qed.

(** The theorem above where the click is at (9,9) and the two stations
    are elsewhere: the second, last, station goes. *)
Lemma onMarkerClick_removes_last_witness :
  let a := App.createStation "A" 1 1 "blue" in
  let b := App.createStation "B" 2 2 "blue" in
  let s := App.State [a; b] [] [] [] true false None [] [] in
  App.stations (App.onMarkerClick (Examples.gutils_answering None None) (1 # 1000000000)
                  (Examples.pos 9 9) s) = [a].
Proof.
  intros a b s.
  apply (proj2 (proj2 (onMarkerClick_removes_first_match_or_last
                         (Examples.gutils_answering None None) (1 # 1000000000)
                         (Examples.pos 9 9) s eq_refl))).
  reflexivity.
Defined.

(** X12: a click on the map does nothing while the markers are hidden.
    While they are shown it adds a red station named "new station" at the
    end of the list, which stays there when the constraints are hidden; when
    the constraints are shown and the click is outside the outer polygon,
    the recalculation removes the new station again at once. *)
Theorem onMapClick_adds_a_station_where_allowed
  (gutils : App.geometry_api) (latlng : position) (s : App.state) :
  let added := App.createStation "new station" (fst latlng) (snd latlng) "red" in
  let s' := App.onMapClick gutils latlng s in
  (App.boolMarkers s = false -> s' = s) /\
  (App.boolMarkers s = true -> App.boolConstraints s = false ->
   App.stations s' = App.stations s ++ [added]) /\
  (App.boolMarkers s = true -> App.boolConstraints s = true ->
   App.constraints_outer s <> [] ->
   App.pointInPolygon gutils added (App.constraints_outer s) = false ->
   App.stations s' =
     List.filter (App.allowed gutils (App.constraints_outer s) (App.constraints_inner s))
                 (App.stations s)).
Proof.
  intros added s'. subst s'. unfold App.onMapClick. fold added.
  split; [|split].
  - by intros ->.
  - intros -> Hbc. rewrite update_stations. simpl. by rewrite Hbc.
  - intros -> Hbc Houter Hout. rewrite update_stations. simpl. rewrite Hbc.
    destruct (App.constraints_outer s) as [|a outer] eqn:E; [done|]. simpl.
    rewrite List.filter_app. simpl.
    unfold App.allowed at 2. rewrite Hout. simpl. by rewrite app_nil_r.
Qed.

Section ToggleFacts.
Variable gutils : App.geometry_api.
Implicit Types (s : App.state).

(** A recalculation after a change of the marker flag gives what the
    recalculation gives when the flag is changed first. *)
Lemma update_with_boolMarkers_after_update (b : bool) s :
  App.update gutils (App.with_boolMarkers b (App.update gutils s)) =
  App.update gutils (App.with_boolMarkers b s).
Proof.
  destruct s as [st outer inner vp bm bc ds ls ms].
  destruct st as [|p st].
  { by rewrite (update_eq gutils (App.State [] outer inner vp bm bc ds ls ms)). }
  rewrite (update_eq gutils (App.State (p :: st) outer inner vp bm bc ds ls ms)).
  rewrite (update_eq gutils (App.with_boolMarkers b _)).
  rewrite (update_eq gutils (App.with_boolMarkers b _)).
  unfold App.with_boolMarkers.
  cbn [App.stations App.constraints_outer App.constraints_inner App.voronoiPolygons
       App.boolMarkers App.boolConstraints App.dragStart App.layers App.markers].
  change (length (p :: st) =? 0) with false. cbv iota zeta.
  cbn [App.stations App.constraints_outer App.constraints_inner App.voronoiPolygons
       App.boolMarkers App.boolConstraints App.dragStart App.layers App.markers].
  remember (if bc && negb (length outer =? 0)
            then List.filter (App.allowed gutils outer inner) (p :: st)
            else p :: st) as kept eqn:Hk.
  assert (Hkept : (if bc && negb (length outer =? 0)
                   then List.filter (App.allowed gutils outer inner) kept
                   else kept) = kept).
  { subst kept. destruct (bc && negb (length outer =? 0)); [|done]. apply filter_idemp. }
  clear Hk. destruct kept as [|q kept'].
  - change (length (@nil App.Station) =? 0) with true. cbv iota.
    by destruct bm, b.
  - change (length (q :: kept') =? 0) with false. cbv iota. by rewrite Hkept.
Qed.

End ToggleFacts.

(** X13: hiding the markers and showing them again, or the reverse, ends
    in the state that one plain recalculation gives. *)
Theorem toggleMarkers_twice_is_update (gutils : App.geometry_api) (s : App.state) :
  App.toggleMarkers gutils (App.toggleMarkers gutils s) = App.update gutils s.
Proof.
  unfold App.toggleMarkers at 1.
  assert (Hflag : App.boolMarkers (App.toggleMarkers gutils s) = negb (App.boolMarkers s)).
  { unfold App.toggleMarkers. by destruct (update_frame gutils
      (App.with_boolMarkers (negb (App.boolMarkers s)) s)) as (_ & _ & -> & _). }
  rewrite Hflag, negb_involutive. unfold App.toggleMarkers.
  rewrite update_with_boolMarkers_after_update.
  by destruct s.
Qed.

(** X14: showing the constraints and hiding them again does not bring
    back the stations that the constraints removed: with a non-empty outer
    polygon only the stations that the constraints allow are left, and the
    constraints are hidden as before. *)
Theorem toggleConstraints_twice_keeps_the_filter (gutils : App.geometry_api) (s : App.state) :
  App.boolConstraints s = false ->
  let s' := App.toggleConstraints gutils (App.toggleConstraints gutils s) in
  App.boolConstraints s' = false /\
  App.stations s' =
    if length (App.constraints_outer s) =? 0 then App.stations s
    else List.filter (App.allowed gutils (App.constraints_outer s) (App.constraints_inner s))
                     (App.stations s).
Proof.
  intros Hbc s'. subst s'.
  set (s1 := App.toggleConstraints gutils s).
  assert (H1 : App.boolConstraints s1 = true /\
               App.stations s1 =
                 if length (App.constraints_outer s) =? 0 then App.stations s
                 else List.filter (App.allowed gutils (App.constraints_outer s)
                                     (App.constraints_inner s)) (App.stations s)).
  { unfold s1, App.toggleConstraints. rewrite Hbc. split.
    - by destruct (update_frame gutils (App.with_boolConstraints (negb false) s))
        as (_ & _ & _ & -> & _).
    - rewrite update_stations. simpl. by destruct (length (App.constraints_outer s) =? 0). }
  destruct H1 as [Hbc1 Hst1].
  unfold App.toggleConstraints. rewrite Hbc1. split.
  - by destruct (update_frame gutils (App.with_boolConstraints (negb true) s1))
      as (_ & _ & _ & -> & _).
  - rewrite update_stations. simpl. exact Hst1.
Qed.

(** The theorem above on two stations of which one is outside the outer
    polygon. *)
Lemma toggleConstraints_twice_witness :
  let a := App.createStation "A" 1 1 "blue" in
  let b := App.createStation "B" 9 9 "blue" in
  let s := App.State [a; b] Examples.large_square [] [] true false None [] [] in
  let s' := App.toggleConstraints (Examples.gutils_answering None None)
              (App.toggleConstraints (Examples.gutils_answering None None) s) in
  App.boolConstraints s' = false /\ App.stations s' = [a].
Proof.
  intros a b s.
  exact (toggleConstraints_twice_keeps_the_filter
           (Examples.gutils_answering None None) s eq_refl).
Defined.

Section DragFacts.
Variable epsilon : Q.

Lemma pointsEqual_refl (a : position) : (0 < epsilon)%Q -> App.pointsEqual epsilon a a = true.
Proof.
  intros Heps. apply pointsEqual_tolerance. split; by apply Qabs_diff_of_equal.
Qed.

(** Once dragged, a station's icon no longer changes: red stays red,
    every other colour has become orange. *)
Lemma moved_icon_settles (l1 l2 : position) (p : App.Station) :
  App.icon (App.moved l2 (App.moved l1 p)) = App.icon (App.moved l1 p).
Proof. unfold App.moved. simpl. by destruct (String.eqb (App.icon p) "red"). Qed.

End DragFacts.

(** X15: a drag that finds its station returns normally and recalculates.
    Before the recalculation the station list has the same length, the
    station found has the new coordinates, its name, and the icon red if
    it was red and orange otherwise (an icon that further drags no longer
    change); the other stations are as they were; and, for a positive
    tolerance, a lookup at the new position finds a station at that index
    or before. *)
Theorem dragend_moves_and_marks_one_station
  (gutils : App.geometry_api) (epsilon : Q) (d latlng : position) (s : App.state) (i : nat) :
  App.dragStart s = Some d ->
  findIndex (fun p => App.pointsEqual epsilon (App.position_of p) d) (App.stations s) = Some i ->
  let st' := alter (App.moved latlng) i (App.stations s) in
  App.dragend gutils epsilon latlng s =
    (Ok tt, App.update gutils
              (App.with_stations (fun st => alter (App.moved latlng) i st) s)) /\
  length st' = length (App.stations s) /\
  (exists p, App.stations s !! i = Some p /\
     st' !! i = Some (App.createStation (App.name p) (fst latlng) (snd latlng)
                        (if String.eqb (App.icon p) "red" then "red" else "orange")%string) /\
     forall again, App.icon (App.moved again (App.moved latlng p))
                   = App.icon (App.moved latlng p)) /\
  (forall j, j <> i -> st' !! j = App.stations s !! j) /\
  ((0 < epsilon)%Q ->
   exists j, j <= i /\
     findIndex (fun p => App.pointsEqual epsilon (App.position_of p) latlng) st' = Some j).
Proof.
  intros Hstart Hi st'. subst st'.
  destruct (findIndex_Some _ _ _ Hi) as (p & Hp & _).
  assert (Hmoved : alter (App.moved latlng) i (App.stations s) !! i
                   = Some (App.moved latlng p)).
  { by rewrite list_lookup_alter_eq, Hp. }
  split; [|split; [|split; [|split]]].
  - unfold App.dragend, bind, gets, modify. by rewrite Hstart, Hi.
  - apply length_alter.
  - exists p. split; [done|]. split.
    + rewrite Hmoved. unfold App.moved. by destruct (String.eqb (App.icon p) "red").
    + intros again. apply moved_icon_settles.
  - intros j Hj. apply list_lookup_alter_ne. congruence.
  - intros Heps. eapply findIndex_le; [exact Hmoved|].
    unfold App.moved, App.position_of. simpl.
    replace (fst latlng, snd latlng) with latlng by (by destruct latlng).
    by apply pointsEqual_refl.
Qed.

(** The theorem above on a blue station dragged from (1,1) to (2,1). *)
Lemma dragend_moves_and_marks_witness :
  let a := App.createStation "A" 1 1 "blue" in
  let s := App.State [a] [] [] [] true false (Some (Examples.pos 1 1)) [] [] in
  alter (App.moved (Examples.pos 2 1)) 0 (App.stations s) !! 0
    = Some (App.createStation "A" 2 1 "orange").
Proof.
  intros a s.
  destruct (dragend_moves_and_marks_one_station
              (Examples.gutils_answering None None) (1 # 1000000000)
              (Examples.pos 1 1) (Examples.pos 2 1) s 0 eq_refl eq_refl)
    as (_ & _ & (p & Hp & Hmoved & _) & _).
  injection Hp as <-. exact Hmoved.
Defined.

Section ObstacleOrder.
Variable gutils : App.geometry_api.

Lemma allowed_Permutation (outer : App.polygon) (inner1 inner2 : list App.polygon)
  (p : App.Station) :
  inner1 ≡ₚ inner2 ->
  App.allowed gutils outer inner1 p = App.allowed gutils outer inner2 p.
Proof.
  intros Hperm. unfold App.allowed. f_equal.
  induction Hperm as [|x l1 l2 _ IH|x y l|l1 l2 l3 _ IH1 _ IH2]; simpl.
  - done.
  - by rewrite IH.
  - by rewrite !andb_assoc, (andb_comm (negb _) (negb _)).
  - by rewrite IH1.
Qed.

End ObstacleOrder.

(** X16: the order of the inner polygons does not matter for the stations
    that [applyConstraintsToPoints] keeps: two states with the same
    stations, the same outer polygon and the same inner polygons in any
    order end with the same stations. *)
Theorem applyConstraintsToPoints_any_obstacle_order
  (gutils : App.geometry_api) (s1 s2 : App.state) :
  App.stations s1 = App.stations s2 ->
  App.constraints_outer s1 = App.constraints_outer s2 ->
  App.constraints_inner s1 ≡ₚ App.constraints_inner s2 ->
  App.stations (App.applyConstraintsToPoints gutils s1)
    = App.stations (App.applyConstraintsToPoints gutils s2).
Proof.
  intros Hst Houter Hinner. rewrite !applyConstraintsToPoints_eq.
  rewrite <- Houter. destruct (length (App.constraints_outer s1) =? 0); [done|].
  simpl. rewrite <- Hst. apply filter_ext. intros p.
  by apply allowed_Permutation.
Qed.

(** The theorem above on two obstacles taken in both orders. *)
Lemma applyConstraintsToPoints_any_obstacle_order_witness :
  let a := App.createStation "A" 1 1 "blue" in
  let s1 := App.State [a] Examples.large_square
              [Examples.unit_square; Examples.small_square] [] true true None [] [] in
  let s2 := App.State [a] Examples.large_square
              [Examples.small_square; Examples.unit_square] [] true true None [] [] in
  App.stations (App.applyConstraintsToPoints (Examples.gutils_answering None None) s1)
    = App.stations (App.applyConstraintsToPoints (Examples.gutils_answering None None) s2).
Proof.
  intros a s1 s2.
  apply (applyConstraintsToPoints_any_obstacle_order
           (Examples.gutils_answering None None) s1 s2); [reflexivity|reflexivity|].
  apply Permutation_swap.
Defined.
